(** * Recipe service core: cache store, key generator and resilient decoder

    A shallow embedding of
      - [app/services/cache.py]   ([CacheEntry], [InMemoryCache], [CacheService.generate_recipe_key])
      - [app/services/gemini.py]  ([GeminiService._parse_response], [GeminiServiceError])
    and the properties of these functions.

    Conventions of the embedding.
      - A Python [str] is a Rocq [string]; each character stands for the code
        point of the same number (0..255).
      - A Python [int] is a [Z].
      - [datetime] values are [Z], counted in microseconds from
        [datetime.min]; every reading of [datetime.utcnow()] is an argument
        of the operation that takes it ([size] takes one reading for each
        entry it tests).  An expiry outside the range of [datetime] raises
        [OverflowError], as in Python.
      - An exception is a result of its own: [set] returns the state it
        leaves together with [Stored] or [OverflowError]; the decoder
        returns a value, raises [GeminiServiceError], or lets an exception of
        the parser pass.
      - The [dict] of the cache is a [gmap string _]; the [list] of keys that
        records recency is a [list string].
      - The [async with self._lock] of every cache operation makes the
        operation atomic: an operation is a function from state to state. *)

From Stdlib Require Import ZArith Ascii String List Permutation Sorted DecimalString.
From Stdlib Require OrderedTypeEx.
From stdpp Require Import gmap strings list fin_maps.

#[local] Set Warnings "-clear-no-such-hyp".

Local Open Scope Z_scope.

(** ** CacheStore: [InMemoryCache] *)

Module Cache.

Section store.

(** The cached values ([Any] in the source). *)
Variable V : Type.

(** [class CacheEntry] *)
Record CacheEntry := mkCacheEntry {
  value : V;
  created_at : Z;
  expires_at : option Z
}.

(** [timedelta(seconds=n)], in microseconds. *)
Definition timedelta (seconds : Z) : Z := seconds * 1000000.

(** [timedelta(seconds=n)] raises [OverflowError] when the number of whole
    days, [n // 86400], is above 999999999 in magnitude. *)
Definition timedelta_overflows (seconds : Z) : bool :=
  negb ((-999999999 <=? seconds / 86400) && (seconds / 86400 <=? 999999999)).

(** [datetime.max], the last microsecond of the year 9999, counted from
    [datetime.min]: 3652059 days. *)
Definition datetime_max : Z := 3652059 * 86400 * 1000000 - 1.

Definition is_datetime (t : Z) : bool := (0 <=? t) && (t <=? datetime_max).

(** [self.created_at + timedelta(seconds=ttl_seconds)]: [None] stands for
    the [OverflowError] of [timedelta] or of the sum, which is raised when
    the sum is not a [datetime]. *)
Definition expiry (now : Z) (ttl_seconds : Z) : option Z :=
  if timedelta_overflows ttl_seconds then None
  else if is_datetime (now + timedelta ttl_seconds)
       then Some (now + timedelta ttl_seconds)
       else None.

(** [CacheEntry.__init__]: [ttl_seconds] is truthy when it is neither [None]
    nor [0]; only then is the expiry computed.  [None] stands for the
    [OverflowError] of that computation. *)
Definition new_entry (now : Z) (v : V) (ttl_seconds : option Z)
  : option CacheEntry :=
  match ttl_seconds with
  | Some t =>
      if t =? 0
      then Some {| value := v; created_at := now; expires_at := None |}
      else match expiry now t with
           | Some x =>
               Some {| value := v; created_at := now; expires_at := Some x |}
           | None => None
           end
  | None => Some {| value := v; created_at := now; expires_at := None |}
  end.

(** [CacheEntry.is_expired] *)
Definition is_expired (now : Z) (e : CacheEntry) : bool :=
  match expires_at e with
  | None => false
  | Some t => now >? t
  end.

(** The state of an [InMemoryCache]. *)
Record InMemoryCache := mkInMemoryCache {
  _cache : gmap string CacheEntry;
  _max_size : Z;
  _default_ttl : Z;
  _access_order : list string
}.

(** [InMemoryCache.__init__] *)
Definition init (max_size default_ttl : Z) : InMemoryCache :=
  {| _cache := ∅; _max_size := max_size; _default_ttl := default_ttl;
     _access_order := [] |}.

(** [if key in l: l.remove(key)]: drops the first occurrence of [key]. *)
Fixpoint list_remove (key : string) (l : list string) : list string :=
  match l with
  | [] => []
  | x :: r => if decide (x = key) then r else x :: list_remove key r
  end.

(** [del self._cache[key]] followed by the guarded [remove] from the
    recency list. *)
Definition drop (key : string) (c : InMemoryCache) : InMemoryCache :=
  {| _cache := delete key (_cache c); _max_size := _max_size c;
     _default_ttl := _default_ttl c;
     _access_order := list_remove key (_access_order c) |}.

(** The guarded [remove] and the [append] that make [key] the most recently
    used. *)
Definition touch (key : string) (order : list string) : list string :=
  list_remove key order ++ [key].

(** [InMemoryCache.get] *)
Definition get (now : Z) (key : string) (c : InMemoryCache)
  : option V * InMemoryCache :=
  match _cache c !! key with
  | None => (None, c)
  | Some entry =>
      if is_expired now entry then (None, drop key c)
      else (Some (value entry),
            {| _cache := _cache c; _max_size := _max_size c;
               _default_ttl := _default_ttl c;
               _access_order := touch key (_access_order c) |})
  end.

(** The eviction loop of [set]:
    [while len(self._cache) >= self._max_size and self._access_order],
    each turn popping the head of the recency list. *)
Fixpoint evict (max_size : Z) (m : gmap string CacheEntry) (order : list string)
  : gmap string CacheEntry * list string :=
  match order with
  | [] => (m, [])
  | oldest_key :: rest =>
      if Z.of_nat (size m) >=? max_size
      then evict max_size (delete oldest_key m) rest
      else (m, order)
  end.

(** How a call of [set] ends: it returns, or [CacheEntry] raises
    [OverflowError]. *)
Inductive set_result := Stored | OverflowError.

(** [InMemoryCache.set]: the eviction loop runs first; when [CacheEntry]
    raises, the state is left as the loop made it, without the new entry
    and with the recency list not yet updated. *)
Definition set (now : Z) (key : string) (v : V) (ttl : option Z)
    (c : InMemoryCache) : set_result * InMemoryCache :=
  let '(m, order) := evict (_max_size c) (_cache c) (_access_order c) in
  let effective_ttl := match ttl with Some t => t | None => _default_ttl c end in
  match new_entry now v (Some effective_ttl) with
  | Some entry =>
      (Stored,
       {| _cache := <[key := entry]> m;
          _max_size := _max_size c;
          _default_ttl := _default_ttl c;
          _access_order := touch key order |})
  | None =>
      (OverflowError,
       {| _cache := m;
          _max_size := _max_size c;
          _default_ttl := _default_ttl c;
          _access_order := order |})
  end.

(** [InMemoryCache.delete] *)
Definition delete_key (key : string) (c : InMemoryCache) : bool * InMemoryCache :=
  match _cache c !! key with
  | Some _ => (true, drop key c)
  | None => (false, c)
  end.

(** [InMemoryCache.clear] *)
Definition clear (c : InMemoryCache) : InMemoryCache :=
  {| _cache := ∅; _max_size := _max_size c; _default_ttl := _default_ttl c;
     _access_order := [] |}.

(** [expired_keys] of [InMemoryCache.size].  [is_expired] reads the clock
    once for each entry it tests; [now k] is the reading taken for the entry
    of the key [k].  The keys come in the order of [map_to_list], not in the
    insertion order of the [dict]; they are distinct, so the order in which
    they are deleted does not show in the result. *)
Definition expired_keys (now : string → Z) (m : gmap string CacheEntry)
  : list string :=
  (map_to_list (filter (λ kv, is_expired (now kv.1) kv.2 = true) m)).*1.

(** [InMemoryCache.size] *)
Definition size_op (now : string → Z) (c : InMemoryCache) : Z * InMemoryCache :=
  let c' := foldl (λ acc key, drop key acc) c (expired_keys now (_cache c)) in
  (Z.of_nat (size (_cache c')), c').

(** One call on the cache, with the clock readings it sees. *)
Inductive op :=
| OpGet (now : Z) (key : string)
| OpSet (now : Z) (key : string) (v : V) (ttl : option Z)
| OpDelete (key : string)
| OpClear
| OpSize (now : string → Z).

(** The state a call leaves; for a [set] that raises, the state it leaves
    behind. *)
Definition step (c : InMemoryCache) (o : op) : InMemoryCache :=
  match o with
  | OpGet now key => (get now key c).2
  | OpSet now key v ttl => (set now key v ttl c).2
  | OpDelete key => (delete_key key c).2
  | OpClear => clear c
  | OpSize now => (size_op now c).2
  end.

Definition run (c : InMemoryCache) (ops : list op) : InMemoryCache :=
  foldl step c ops.

(** The call returns: of the five calls only [set] can raise. *)
Definition returns (c : InMemoryCache) (o : op) : bool :=
  match o with
  | OpSet now key v ttl =>
      match (set now key v ttl c).1 with
      | Stored => true
      | OverflowError => false
      end
  | _ => true
  end.

(** Every call of the sequence returns. *)
Fixpoint all_return (c : InMemoryCache) (ops : list op) : bool :=
  match ops with
  | [] => true
  | o :: r => returns c o && all_return (step c o) r
  end.

(** Calls that only read: [get] and [size]. *)
Definition is_read (o : op) : bool :=
  match o with
  | OpGet _ _ | OpSize _ => true
  | _ => false
  end.

(** Number of stored entries, [len(self._cache)]. *)
Definition entries (c : InMemoryCache) : Z := Z.of_nat (size (_cache c)).

(** The recency list names exactly the stored keys, each once. *)
Definition wf (c : InMemoryCache) : Prop :=
  NoDup (_access_order c) ∧
  ∀ k, k ∈ _access_order c ↔ is_Some (_cache c !! k).

End store.

Arguments value {V}.
Arguments created_at {V}.
Arguments expires_at {V}.
Arguments new_entry {V}.
Arguments is_expired {V}.
Arguments _cache {V}.
Arguments _max_size {V}.
Arguments _default_ttl {V}.
Arguments _access_order {V}.
Arguments init {V}.
Arguments drop {V}.
Arguments get {V}.
Arguments evict {V}.
Arguments set {V}.
Arguments delete_key {V}.
Arguments clear {V}.
Arguments expired_keys {V}.
Arguments size_op {V}.
Arguments OpGet {V}.
Arguments OpSet {V}.
Arguments OpDelete {V}.
Arguments OpClear {V}.
Arguments OpSize {V}.
Arguments step {V}.
Arguments run {V}.
Arguments returns {V}.
Arguments all_return {V}.
Arguments is_read {V}.
Arguments entries {V}.
Arguments wf {V}.

End Cache.

(** ** Python [str] operations used by the key generator and the decoder *)

Module PyStr.

Local Open Scope string_scope.

Definition code (c : ascii) : N := N_of_ascii c.

(** [str.isspace] on one character, which is also what [str.strip] removes
    and what [\s] matches in a [str] pattern: the code points 9..13, 28..32,
    133 and 160. *)
Definition isspace (c : ascii) : bool :=
  let n := code c in
  ((9 <=? n) && (n <=? 13) || (28 <=? n) && (n <=? 32)
   || (n =? 133) || (n =? 160))%N.

(** [str.lower] on one character: [A-Z] and the upper-case letters 192..222
    (without the sign 215) move up by 32. *)
Definition lower_char (c : ascii) : ascii :=
  let n := code c in
  if ((65 <=? n) && (n <=? 90)
      || (192 <=? n) && (n <=? 222) && negb (n =? 215))%N
  then ascii_of_N (n + 32) else c.

(** [s.lower()] *)
Fixpoint lower (s : string) : string :=
  match s with
  | "" => ""
  | String c r => String (lower_char c) (lower r)
  end.

(** [s.lstrip(chars)], the set of characters given as a predicate. *)
Fixpoint lstrip_by (p : ascii -> bool) (s : string) : string :=
  match s with
  | "" => ""
  | String c r => if p c then lstrip_by p r else s
  end.

(** [s.rstrip(chars)] *)
Fixpoint rstrip_by (p : ascii -> bool) (s : string) : string :=
  match s with
  | "" => ""
  | String c r =>
      match rstrip_by p r with
      | "" => if p c then "" else String c ""
      | r' => String c r'
      end
  end.

(** [s.strip()] and [s.rstrip()] *)
Definition strip (s : string) : string := rstrip_by isspace (lstrip_by isspace s).
Definition rstrip (s : string) : string := rstrip_by isspace s.

(** Membership of a character in a string, [c in chars]. *)
Fixpoint mem (c : ascii) (chars : string) : bool :=
  match chars with
  | "" => false
  | String d r => Ascii.eqb c d || mem c r
  end.

(** [s.startswith(p)] *)
Fixpoint startswith (p s : string) : bool :=
  match p, s with
  | "", _ => true
  | String a p', String b s' => Ascii.eqb a b && startswith p' s'
  | String _ _, "" => false
  end.

(** [s[n:]] *)
Fixpoint drop (n : nat) (s : string) : string :=
  match n, s with
  | O, _ => s
  | S n', String _ r => drop n' r
  | S _, "" => ""
  end.

(** [s[:n]] for [n >= 0] *)
Fixpoint take (n : nat) (s : string) : string :=
  match n, s with
  | S n', String c r => String c (take n' r)
  | _, _ => ""
  end.

(** [s.endswith(p)] *)
Definition endswith (p s : string) : bool :=
  (String.length p <=? String.length s)%nat
  && String.eqb (drop (String.length s - String.length p) s) p.

(** [s[:-n]] for [n > 0] *)
Definition drop_last (n : nat) (s : string) : string :=
  take (String.length s - n) s.

(** [s.count(c)] for a one-character [c] *)
Fixpoint count (c : ascii) (s : string) : Z :=
  match s with
  | "" => 0
  | String d r => (if Ascii.eqb d c then 1 else 0) + count c r
  end.

(** [s.replace(ab, '')] for a two-character [ab]: the occurrences are found
    from the left and do not overlap. *)
Fixpoint remove_pair (a b : ascii) (s : string) : string :=
  match s with
  | "" => ""
  | String c r =>
      match r with
      | String d r' =>
          if Ascii.eqb c a && Ascii.eqb d b then remove_pair a b r'
          else String c (remove_pair a b r)
      | "" => s
      end
  end.

(** [c * n]: empty when [n <= 0]. *)
Definition times (c : ascii) (n : Z) : string :=
  string_of_list_ascii (repeat c (Z.to_nat n)).

(** [sep.join(l)] *)
Fixpoint join (sep : string) (l : list string) : string :=
  match l with
  | [] => ""
  | [x] => x
  | x :: r => x ++ sep ++ join sep r
  end.

(** [sorted(l)] on strings: the order of [str] is the lexicographic order of
    the code points, [String.leb]. *)
Fixpoint insert_sorted (x : string) (l : list string) : list string :=
  match l with
  | [] => [x]
  | y :: r => if String.leb x y then x :: l else y :: insert_sorted x r
  end.

Fixpoint sorted (l : list string) : list string :=
  match l with
  | [] => []
  | x :: r => insert_sorted x (sorted r)
  end.

(** [str(n)] for an [int]. *)
Definition str_int (n : Z) : string := NilZero.string_of_int (Z.to_int n).

(** Every character of [s] satisfies [p]. *)
Fixpoint all (p : ascii -> bool) (s : string) : bool :=
  match s with
  | "" => true
  | String c r => p c && all p r
  end.

End PyStr.

(** ** The digest: [hashlib.md5]

    MD5 on the bytes of the encoded key string, as [hashlib] computes it. *)

Module MD5.

Local Open Scope string_scope.
Local Open Scope Z_scope.

(** [str.encode()]: UTF-8; a code point below 128 is one byte, one from 128
    to 255 is two. *)
Definition encode_char (c : ascii) : list Z :=
  let n := Z.of_N (N_of_ascii c) in
  if n <? 128 then [n]
  else [Z.lor 192 (Z.shiftr n 6); Z.lor 128 (Z.land n 63)].

Definition encode (s : string) : list Z :=
  flat_map encode_char (list_ascii_of_string s).

Definition w32 (x : Z) : Z := Z.land x 4294967295.

Definition rotl (x n : Z) : Z :=
  w32 (Z.lor (Z.shiftl x n) (Z.shiftr x (32 - n))).

Definition K : list Z :=
  [3614090360; 3905402710; 606105819; 3250441966; 4118548399; 1200080426; 2821735955; 4249261313;
   1770035416; 2336552879; 4294925233; 2304563134; 1804603682; 4254626195; 2792965006; 1236535329;
   4129170786; 3225465664; 643717713; 3921069994; 3593408605; 38016083; 3634488961; 3889429448;
   568446438; 3275163606; 4107603335; 1163531501; 2850285829; 4243563512; 1735328473; 2368359562;
   4294588738; 2272392833; 1839030562; 4259657740; 2763975236; 1272893353; 4139469664; 3200236656;
   681279174; 3936430074; 3572445317; 76029189; 3654602809; 3873151461; 530742520; 3299628645;
   4096336452; 1126891415; 2878612391; 4237533241; 1700485571; 2399980690; 4293915773; 2240044497;
   1873313359; 4264355552; 2734768916; 1309151649; 4149444226; 3174756917; 718787259; 3951481745].

Definition shifts : list Z :=
  [7; 12; 17; 22; 7; 12; 17; 22; 7; 12; 17; 22; 7; 12; 17; 22;
   5; 9; 14; 20; 5; 9; 14; 20; 5; 9; 14; 20; 5; 9; 14; 20;
   4; 11; 16; 23; 4; 11; 16; 23; 4; 11; 16; 23; 4; 11; 16; 23;
   6; 10; 15; 21; 6; 10; 15; 21; 6; 10; 15; 21; 6; 10; 15; 21].

(** The [n] low bytes of [x], least significant first. *)
Fixpoint le_bytes (n : nat) (x : Z) : list Z :=
  match n with
  | O => []
  | S n' => Z.land x 255 :: le_bytes n' (Z.shiftr x 8)
  end.

(** The word of four bytes, least significant first. *)
Definition le_word (bs : list Z) : Z :=
  fold_right (fun b acc => b + 256 * acc) 0 bs.

(** The message with the bit 1, the zero bytes and the length in bits. *)
Definition pad (msg : list Z) : list Z :=
  let len := Z.of_nat (length msg) in
  let zeros := Z.to_nat ((55 - len) mod 64) in
  msg ++ [128] ++ repeat 0 zeros ++ le_bytes 8 (8 * len).

(** The words of a block of 64 bytes. *)
Fixpoint words (n : nat) (bs : list Z) : list Z :=
  match n with
  | O => []
  | S n' => le_word (firstn 4 bs) :: words n' (skipn 4 bs)
  end.

Definition round (M : list Z) (st : Z * Z * Z * Z) (i : Z) : Z * Z * Z * Z :=
  let '(a, b, c, d) := st in
  let nb := Z.lxor b 4294967295 in
  let nd := Z.lxor d 4294967295 in
  let '(f, g) :=
    if i <? 16 then (Z.lor (Z.land b c) (Z.land nb d), i)
    else if i <? 32 then (Z.lor (Z.land d b) (Z.land nd c), (5 * i + 1) mod 16)
    else if i <? 48 then (Z.lxor (Z.lxor b c) d, (3 * i + 5) mod 16)
    else (Z.lxor c (Z.lor b nd), (7 * i) mod 16) in
  let f := w32 (f + a + nth (Z.to_nat i) K 0 + nth (Z.to_nat g) M 0) in
  (d, w32 (b + rotl f (nth (Z.to_nat i) shifts 0)), b, c).

Definition block (st : Z * Z * Z * Z) (bs : list Z) : Z * Z * Z * Z :=
  let '(a0, b0, c0, d0) := st in
  let '(a, b, c, d) :=
    fold_left (round (words 16 bs)) (map Z.of_nat (seq 0 64)) st in
  (w32 (a0 + a), w32 (b0 + b), w32 (c0 + c), w32 (d0 + d)).

(** The blocks of a padded message; [n] is the number of blocks. *)
Fixpoint blocks (n : nat) (st : Z * Z * Z * Z) (bs : list Z) : Z * Z * Z * Z :=
  match n with
  | O => st
  | S n' => blocks n' (block st (firstn 64 bs)) (skipn 64 bs)
  end.

Definition hex_digit (n : Z) : ascii :=
  ascii_of_N (Z.to_N (if n <? 10 then 48 + n else 87 + n)).

Definition hex_byte (b : Z) : string :=
  String (hex_digit (Z.shiftr b 4)) (String (hex_digit (Z.land b 15)) "").

(** [hashlib.md5(msg).hexdigest()] *)
Definition hexdigest (msg : list Z) : string :=
  let p := pad msg in
  let '(a, b, c, d) :=
    blocks (Nat.div (length p) 64) (1732584193, 4023233417, 2562383102, 271733878) p in
  String.concat ""
    (map hex_byte (le_bytes 4 a ++ le_bytes 4 b ++ le_bytes 4 c ++ le_bytes 4 d)).

End MD5.

(** ** KeyGenerator: [CacheService.generate_recipe_key] *)

Module KeyGen.

Import PyStr.
Local Open Scope string_scope.

(** [dietary_str]: a list that is [None] or empty is falsy. *)
Definition dietary_str (dietary_restrictions : option (list string)) : string :=
  match dietary_restrictions with
  | None | Some [] => ""
  | Some l => join "_" (sorted l)
  end.

(** [key_string] *)
Definition key_string (dish_name : string) (servings : Z)
    (dietary_restrictions : option (list string)) : string :=
  strip (lower dish_name) ++ "_" ++ str_int servings ++ "_"
  ++ dietary_str dietary_restrictions.

Definition generate_recipe_key (dish_name : string) (servings : Z)
    (dietary_restrictions : option (list string)) : string :=
  MD5.hexdigest (MD5.encode (key_string dish_name servings dietary_restrictions)).

End KeyGen.

(** ** The standard parser: [json.loads]

    A model of the decoder of Python's [json] module on [str] input, used to
    evaluate [_parse_response] on concrete texts.  A call ends with a value,
    with [json.JSONDecodeError], or with the [ValueError] that [int] raises
    on a literal of more than 4300 digits.  What the model leaves out: a
    number with a fraction or an exponent keeps its lexeme instead of
    becoming a [float], so two lexemes of one [float] are two values here;
    the members of an object are kept in insertion order; the
    [RecursionError] of a text nested deeper than the interpreter allows is
    not raised, the depth being a setting of the interpreter.  No text
    evaluated below has a fraction, an exponent or a nesting of more than
    three levels.  The properties of the decoder are stated for every
    parser, whatever it returns or raises. *)

Module Json.

Import PyStr.
Local Open Scope string_scope.

(** The characters that cannot be written inside a string literal here. *)
Definition dquote : ascii := ascii_of_N 34.
Definition tab : ascii := ascii_of_N 9.
Definition newline : ascii := ascii_of_N 10.
Definition cr : ascii := ascii_of_N 13.

(** A JSON text written with apostrophes in the place of double quotes. *)
Fixpoint qq (s : string) : string :=
  match s with
  | "" => ""
  | String c r => String (if Ascii.eqb c "'" then dquote else c) (qq r)
  end.

(** The code points of a string. *)
Definition codes (s : string) : list N := map code (list_ascii_of_string s).

(** How a call of [json.loads] ends: with a value, with
    [json.JSONDecodeError], or with an exception of another class. *)
Inductive loaded (J E : Type) :=
| Value (v : J)
| JSONDecodeError
| Raises (e : E).

Arguments Value {J E}.
Arguments JSONDecodeError {J E}.
Arguments Raises {J E}.

(** The value a call returns, when it returns one. *)
Definition value_of {J E : Type} (r : loaded J E) : option J :=
  match r with
  | Value v => Some v
  | JSONDecodeError | Raises _ => None
  end.

(** The exception of another class that the parser modelled here raises:
    the [ValueError] of [int] on a literal of more than 4300 digits, the
    default of [sys.get_int_max_str_digits()]. *)
Inductive exn := ValueError (digits : nat).

(** [str(e)] *)
Definition str (e : exn) : string :=
  match e with
  | ValueError digits =>
      "Exceeds the limit (4300 digits) for integer string conversion: value has "
      ++ str_int (Z.of_nat digits)
      ++ " digits; use sys.set_int_max_str_digits() to increase the limit"
  end.

#[warnings="-register-all"]
Inductive json :=
| JNull
| JBool (b : bool)
| JInt (n : Z)
| JFloat (lexeme : string)
| JStr (s : list N)
| JArr (items : list json)
| JObj (members : list (list N * json)).

(** [WHITESPACE = [ \t\n\r]*] *)
Definition is_ws (c : ascii) : bool :=
  Ascii.eqb c " " || Ascii.eqb c tab || Ascii.eqb c newline || Ascii.eqb c cr.

Definition skip_ws (s : string) : string := lstrip_by is_ws s.

Definition is_digit (c : ascii) : bool := ((48 <=? code c) && (code c <=? 57))%N.

Definition hex_val (c : ascii) : option N :=
  let n := code c in
  if ((48 <=? n) && (n <=? 57))%N then Some (n - 48)%N
  else if ((65 <=? n) && (n <=? 70))%N then Some (n - 55)%N
  else if ((97 <=? n) && (n <=? 102))%N then Some (n - 87)%N
  else None.

Definition hex4 (a b c d : ascii) : option N :=
  match hex_val a, hex_val b, hex_val c, hex_val d with
  | Some x, Some y, Some z, Some w => Some (((x * 16 + y) * 16 + z) * 16 + w)%N
  | _, _, _, _ => None
  end.

(** [BACKSLASH] of the string scanner. *)
Definition escape_char (e : ascii) : option N :=
  if Ascii.eqb e dquote then Some 34%N
  else if Ascii.eqb e "\" then Some 92%N
  else if Ascii.eqb e "/" then Some 47%N
  else if Ascii.eqb e "b" then Some 8%N
  else if Ascii.eqb e "f" then Some 12%N
  else if Ascii.eqb e "n" then Some 10%N
  else if Ascii.eqb e "r" then Some 13%N
  else if Ascii.eqb e "t" then Some 9%N
  else None.

Definition is_high_surrogate (u : N) : bool := ((55296 <=? u) && (u <=? 56319))%N.
Definition is_low_surrogate (u : N) : bool := ((56320 <=? u) && (u <=? 57343))%N.

(** [scanstring] in strict mode, started behind the opening quote: the
    characters of the literal and the text behind its closing quote. *)
Fixpoint scanstring (s : string) : option (list N * string) :=
  match s with
  | "" => None
  | String c r =>
      if Ascii.eqb c dquote then Some ([], r)
      else if Ascii.eqb c "\" then
        match r with
        | "" => None
        | String e r1 =>
            if Ascii.eqb e "u" then
              match r1 with
              | String h1 (String h2 (String h3 (String h4 r2))) =>
                  match hex4 h1 h2 h3 h4 with
                  | None => None
                  | Some uni =>
                      let plain :=
                        match scanstring r2 with
                        | Some (l, rest) => Some (uni :: l, rest)
                        | None => None
                        end in
                      if is_high_surrogate uni then
                        match r2 with
                        | String b (String u (String g1 (String g2 (String g3 (String g4 r3))))) =>
                            if Ascii.eqb b "\" && Ascii.eqb u "u" then
                              match hex4 g1 g2 g3 g4 with
                              | None => None
                              | Some uni2 =>
                                  if is_low_surrogate uni2 then
                                    match scanstring r3 with
                                    | Some (l, rest) =>
                                        Some ((65536 + ((uni - 55296) * 1024 + (uni2 - 56320)))%N :: l, rest)
                                    | None => None
                                    end
                                  else plain
                              end
                            else plain
                        | _ => plain
                        end
                      else plain
                  end
              | _ => None
              end
            else
              match escape_char e with
              | None => None
              | Some ch =>
                  match scanstring r1 with
                  | Some (l, rest) => Some (ch :: l, rest)
                  | None => None
                  end
              end
        end
      else if (code c <? 32)%N then None
      else
        match scanstring r with
        | Some (l, rest) => Some (code c :: l, rest)
        | None => None
        end
  end.

(** The longest run of digits at the start of [s], and the rest. *)
Fixpoint span_digits (s : string) : string * string :=
  match s with
  | "" => ("", "")
  | String c r =>
      if is_digit c then let '(d, rest) := span_digits r in (String c d, rest)
      else ("", s)
  end.

(** [int(digits)] *)
Definition int_of_digits (digits : string) : Z :=
  fold_left (fun acc c => acc * 10 + (Z.of_N (code c) - 48))
            (list_ascii_of_string digits) 0.

(** [int(integer)] for the integer part [sign ++ digits] of a number: the
    sign does not count towards the limit. *)
Definition parse_int (sign digits : string) : Z + exn :=
  if (4300 <? String.length digits)%nat
  then inr (ValueError (String.length digits))
  else inl (if String.eqb sign "-" then - int_of_digits digits
            else int_of_digits digits).

(** The value of a number matched by [NUMBER_RE]: a [float] when it has a
    fraction or an exponent, an [int] otherwise. *)
Definition number_value (sign digits frac exp : string) : json + exn :=
  match frac, exp with
  | "", "" =>
      match parse_int sign digits with
      | inl n => inl (JInt n)
      | inr e => inr e
      end
  | _, _ => inl (JFloat (sign ++ digits ++ frac ++ exp))
  end.

(** [NUMBER_RE] matched at the start of [s]: an optional minus sign, then
    either a single zero or a nonzero digit with any digits behind it; then,
    optionally, a dot with one digit or more; then, optionally, [e] or [E],
    an optional sign and one digit or more.  The result is the sign, the
    digits of the integer part, the fraction, the exponent and the text
    behind the match. *)
Definition match_number (s : string)
  : option (string * string * string * string * string) :=
  let '(sign, s1) :=
    match s with
    | String c r => if Ascii.eqb c "-" then ("-", r) else ("", s)
    | "" => ("", s)
    end in
  match s1 with
  | "" => None
  | String c r =>
      if negb (is_digit c) then None
      else
        let '(integer, s2) :=
          if Ascii.eqb c "0" then ("0", r)
          else let '(d, rest) := span_digits r in (String c d, rest) in
        let '(frac, s3) :=
          match s2 with
          | String p r2 =>
              if Ascii.eqb p "." then
                match span_digits r2 with
                | ("", _) => ("", s2)
                | (d, rest) => (String p d, rest)
                end
              else ("", s2)
          | "" => ("", s2)
          end in
        let '(exp, s4) :=
          match s3 with
          | String e r3 =>
              if Ascii.eqb e "e" || Ascii.eqb e "E" then
                let '(sg, r4) :=
                  match r3 with
                  | String g r5 =>
                      if Ascii.eqb g "-" || Ascii.eqb g "+" then (String g "", r5)
                      else ("", r3)
                  | "" => ("", r3)
                  end in
                match span_digits r4 with
                | ("", _) => ("", s3)
                | (d, rest) => (String e (sg ++ d), rest)
                end
              else ("", s3)
          | "" => ("", s3)
          end in
        Some (sign, integer, frac, exp, s4)
  end.

(** [dict(pairs)]: a repeated key keeps its first place and its last value. *)
Fixpoint dict_set (k : list N) (v : json) (d : list (list N * json))
  : list (list N * json) :=
  match d with
  | [] => [(k, v)]
  | (k', v') :: r =>
      if bool_decide (k = k') then (k, v) :: r else (k', v') :: dict_set k v r
  end.

Definition dict (pairs : list (list N * json)) : list (list N * json) :=
  fold_left (fun d kv => dict_set kv.1 kv.2 d) pairs [].

(** What a scanner returns: a value and the text behind it, or one of the
    two failures. *)
Definition scanned : Type := loaded (json * string) exn.

(** [scan_once]: one value at the start of [s].  [items] and [members] are
    the scanners of [JSONArray] and [JSONObject], entered behind the opening
    character and the white space that follows it. *)
Definition scan_value
    (items : string -> list json -> scanned)
    (members : string -> list (list N * json) -> scanned)
    (s : string) : scanned :=
  match s with
  | "" => JSONDecodeError
  | String c r =>
      if Ascii.eqb c dquote then
        match scanstring r with
        | Some (l, rest) => Value (JStr l, rest)
        | None => JSONDecodeError
        end
      else if Ascii.eqb c "{" then
        match skip_ws r with
        | "" => JSONDecodeError
        | String d rest as r' =>
            if Ascii.eqb d "}" then Value (JObj [], rest) else members r' []
        end
      else if Ascii.eqb c "[" then
        match skip_ws r with
        | "" => JSONDecodeError
        | String d rest as r' =>
            if Ascii.eqb d "]" then Value (JArr [], rest) else items r' []
        end
      else if startswith "null" s then Value (JNull, drop 4 s)
      else if startswith "true" s then Value (JBool true, drop 4 s)
      else if startswith "false" s then Value (JBool false, drop 5 s)
      else
        match match_number s with
        | Some (sign, digits, frac, exp, rest) =>
            match number_value sign digits frac exp with
            | inl v => Value (v, rest)
            | inr e => Raises e
            end
        | None =>
            if startswith "NaN" s then Value (JFloat "NaN", drop 3 s)
            else if startswith "Infinity" s then Value (JFloat "Infinity", drop 8 s)
            else if startswith "-Infinity" s then Value (JFloat "-Infinity", drop 9 s)
            else JSONDecodeError
        end
  end.

(** One turn of the loop of [JSONArray]: an item, then the closing bracket
    or a comma and the next turn. *)
Definition scan_item
    (once : string -> scanned)
    (items : string -> list json -> scanned)
    (s : string) (acc : list json) : scanned :=
  match once s with
  | JSONDecodeError => JSONDecodeError
  | Raises e => Raises e
  | Value (v, rest) =>
      match skip_ws rest with
      | "" => JSONDecodeError
      | String d rest' =>
          if Ascii.eqb d "]" then Value (JArr (rev (v :: acc)), rest')
          else if Ascii.eqb d "," then items (skip_ws rest') (v :: acc)
          else JSONDecodeError
      end
  end.

(** One turn of the loop of [JSONObject]: a name in quotes, a colon, a
    value, then the closing brace or a comma and the next turn. *)
Definition scan_member
    (once : string -> scanned)
    (members : string -> list (list N * json) -> scanned)
    (s : string) (acc : list (list N * json)) : scanned :=
  match s with
  | "" => JSONDecodeError
  | String q r =>
      if negb (Ascii.eqb q dquote) then JSONDecodeError
      else
        match scanstring r with
        | None => JSONDecodeError
        | Some (key, rest) =>
            match skip_ws rest with
            | "" => JSONDecodeError
            | String colon rest1 =>
                if negb (Ascii.eqb colon ":") then JSONDecodeError
                else
                  match once (skip_ws rest1) with
                  | JSONDecodeError => JSONDecodeError
                  | Raises e => Raises e
                  | Value (v, rest2) =>
                      match skip_ws rest2 with
                      | "" => JSONDecodeError
                      | String d rest3 =>
                          if Ascii.eqb d "}"
                          then Value (JObj (dict (rev ((key, v) :: acc))), rest3)
                          else if Ascii.eqb d ","
                          then members (skip_ws rest3) ((key, v) :: acc)
                          else JSONDecodeError
                      end
                  end
            end
        end
  end.

(** The three scanners call one another; every call takes one unit of
    [fuel]. *)
Fixpoint scan_once (fuel : nat) (s : string) : scanned :=
  match fuel with
  | O => JSONDecodeError
  | S fuel' => scan_value (scan_items fuel') (scan_members fuel') s
  end
with scan_items (fuel : nat) (s : string) (acc : list json) : scanned :=
  match fuel with
  | O => JSONDecodeError
  | S fuel' => scan_item (scan_once fuel') (scan_items fuel') s acc
  end
with scan_members (fuel : nat) (s : string) (acc : list (list N * json))
  : scanned :=
  match fuel with
  | O => JSONDecodeError
  | S fuel' => scan_member (scan_once fuel') (scan_members fuel') s acc
  end.

(** [json.loads(s)]: one value, white space around it, nothing else.  The
    fuel is twice the length of the text and two more, which is enough: no
    larger amount changes the result ([JsonFacts.loads_settled]). *)
Definition loads_with (fuel : nat) (s : string) : loaded json exn :=
  match scan_once fuel (skip_ws s) with
  | Value (v, rest) =>
      match skip_ws rest with
      | "" => Value v
      | _ => JSONDecodeError
      end
  | JSONDecodeError => JSONDecodeError
  | Raises e => Raises e
  end.

Definition loads (s : string) : loaded json exn :=
  loads_with (2 * String.length s + 2) s.

End Json.

(** ** ResilientDecoder: [GeminiService._parse_response] *)

Module Decoder.

Import PyStr.
Local Open Scope string_scope.

(** [class GeminiServiceError]: the two fields its [__init__] stores. *)
Record GeminiServiceError := mkGeminiServiceError {
  message : string;
  error_code : string
}.

Definition dquote : ascii := Json.dquote.

(** The closing characters of the pattern, [[}\]]]. *)
Definition is_closer (c : ascii) : bool := Ascii.eqb c "}" || Ascii.eqb c "]".

(** The group of the pattern, white space and then a closing character,
    matches at the start of [s]. *)
Fixpoint closes (s : string) : bool :=
  match s with
  | "" => false
  | String c r => is_closer c || isspace c && closes r
  end.

(** [re.sub(r',(\s*[}\]])', r'\1', text)]: one scan from the left; a comma on
    which the pattern matches is replaced by the group, which is the text
    that follows the comma, and the scan resumes behind the group.  The group
    holds no comma, so resuming behind the comma copies it unchanged (see
    [remove_trailing_commas_resume]). *)
Fixpoint remove_trailing_commas (s : string) : string :=
  match s with
  | "" => ""
  | String c r =>
      if Ascii.eqb c "," && closes r then remove_trailing_commas r
      else String c (remove_trailing_commas r)
  end.

(** The characters of [',\n\t '] *)
Definition noise (c : ascii) : bool :=
  Ascii.eqb c "," || Ascii.eqb c Json.newline || Ascii.eqb c Json.tab
  || Ascii.eqb c " ".

(** The removal of the markdown fence, with the [strip] before and after. *)
Definition strip_fences (response_text : string) : string :=
  let text := strip response_text in
  let text :=
    if startswith "```json" text then drop 7 text
    else if startswith "```" text then drop 3 text
    else text in
  let text := if endswith "```" text then drop_last 3 text else text in
  strip text.

(** The repair of a truncated text: the branch
    [if open_brackets > 0 or open_braces > 0]. *)
Definition close_truncated (text : string) : string :=
  let open_braces := count "{" text - count "}" text in
  let open_brackets := count "[" text - count "]" text in
  if (open_brackets >? 0)%Z || (open_braces >? 0)%Z then
    let temp := remove_pair "\" dquote text in
    let quote_count := count dquote temp in
    let text :=
      if (quote_count mod 2 =? 1)%Z then
        let text := rstrip text in
        if endswith (String dquote "") text then text
        else text ++ String dquote ""
      else text in
    let text := rstrip_by noise text in
    text ++ times "]" open_brackets ++ times "}" open_braces
  else text.

(** The body of the last-resort loop up to its call of the parser. *)
Definition close_partial (partial : string) : string :=
  let partial := rstrip_by noise partial in
  let open_b := count "{" partial - count "}" partial in
  let open_br := count "[" partial - count "]" partial in
  partial ++ times "]" open_br ++ times "}" open_b.

(** How a call of [_parse_response] ends: it returns a value, it raises
    [GeminiServiceError], or an exception of the parser passes through it. *)
Inductive outcome (J E : Type) :=
| Returns (v : J)
| RaisesService (e : GeminiServiceError)
| RaisesOther (e : E).

Arguments Returns {J E}.
Arguments RaisesService {J E}.
Arguments RaisesOther {J E}.

Section decoder.

(** The parsed values, the exceptions of the parser that are not a
    [json.JSONDecodeError], and [json.loads]. *)
Variable J E : Type.
Variable json_loads : string -> Json.loaded J E.

(** [for i in range(len(text), 0, -1)], entered at [i]; the bare [except]
    of the loop body catches every exception of the parser. *)
Fixpoint recover (text : string) (i : nat) : option J :=
  match i with
  | O => None
  | S i' =>
      match json_loads (close_partial (take i text)) with
      | Json.Value result => Some result
      | Json.JSONDecodeError | Json.Raises _ => recover text i'
      end
  end.

Definition parse_error : GeminiServiceError :=
  {| message := "Failed to parse recipe data from AI.";
     error_code := "JSON_PARSE_ERROR" |}.

(** [GeminiService._parse_response].  The parse of the repaired text stands
    under [except json.JSONDecodeError]: an exception of another class is
    not caught. *)
Definition _parse_response (response_text : string) : outcome J E :=
  let text := strip_fences response_text in
  let text := remove_trailing_commas text in
  let text := close_truncated text in
  match json_loads text with
  | Json.Value v => Returns v
  | Json.JSONDecodeError =>
      match recover text (String.length text) with
      | Some result => Returns result
      | None => RaisesService parse_error
      end
  | Json.Raises e => RaisesOther e
  end.

End decoder.


(** A comma followed by white space and a closing character occurs in [s]. *)
Fixpoint has_trailing_comma (s : string) : bool :=
  match s with
  | "" => false
  | String c r => Ascii.eqb c "," && closes r || has_trailing_comma r
  end.



(** [sub in s] *)
Fixpoint contains (sub s : string) : bool :=
  startswith sub s
  || match s with
     | "" => false
     | String _ r => contains sub r
     end.

(** No repair step applies to the stripped text [t]: no fence at either end,
    no comma before a closing character, no surplus of opening characters. *)
Definition no_repair (t : string) : bool :=
  negb (startswith "```" t) && negb (endswith "```" t)
  && negb (has_trailing_comma t)
  && (count "{" t <=? count "}" t)%Z && (count "[" t <=? count "]" t)%Z.

End Decoder.

(** ** CacheService: the calls that go through the fingerprint *)

Module Service.

Import KeyGen.

Section service.

Variable V : Type.

(** [CacheService.get_recipe] *)
Definition get_recipe (now : Z) (dish_name : string) (servings : Z)
    (dietary_restrictions : option (list string)) (c : Cache.InMemoryCache V)
  : option V * Cache.InMemoryCache V :=
  Cache.get now (generate_recipe_key dish_name servings dietary_restrictions) c.

(** [CacheService.set_recipe] *)
Definition set_recipe (now : Z) (dish_name : string) (servings : Z)
    (recipe_data : V) (dietary_restrictions : option (list string))
    (ttl : option Z) (c : Cache.InMemoryCache V)
  : Cache.set_result * Cache.InMemoryCache V :=
  Cache.set now (generate_recipe_key dish_name servings dietary_restrictions)
            recipe_data ttl c.

(** [CacheService.clear] *)
Definition clear (c : Cache.InMemoryCache V) : Cache.InMemoryCache V :=
  Cache.clear c.

End service.

Arguments get_recipe {V}.
Arguments set_recipe {V}.
Arguments clear {V}.

End Service.

(** ** GeminiService: the prompt and [generate_recipe] *)

Module Gemini.

Import PyStr Decoder.
Local Open Scope string_scope.

(** [class RecipeRequest] *)
Record RecipeRequest := mkRecipeRequest {
  dish_name : string;
  servings : Z;
  cuisine_type : option string;
  dietary_restrictions : option (list string);
  difficulty_level : option string
}.

(** The text added for the cuisine: a string that is [None] or empty is
    falsy. *)
Definition style_extra (cuisine : option string) : string :=
  match cuisine with
  | None | Some "" => ""
  | Some s => " Style:" ++ s ++ "."
  end.

(** The text added for the restrictions: a list that is [None] or empty is
    falsy. *)
Definition diet_extra (restrictions : option (list string)) : string :=
  match restrictions with
  | None | Some [] => ""
  | Some l => " Diet:" ++ join "," l ++ "."
  end.

(** [GeminiService._build_prompt] *)
Definition _build_prompt (request : RecipeRequest) : string :=
  let extras :=
    style_extra (cuisine_type request)
    ++ diet_extra (dietary_restrictions request) in
  join (String Json.newline "")
    [ Json.qq "Chef recipe: '" ++ dish_name request ++ Json.qq "' for "
        ++ str_int (servings request) ++ " servings." ++ extras;
      "";
      "SCALE: Protein 150g/person, Veg 120g/person, Grain 80g/person. Spices scale 1.5x when doubling. Liquids scale 80%.";
      "";
      "UNITS: grams(solids), ml(liquids), tsp(<10g). Include oil,salt,water.";
      "";
      "CATEGORIES: protein|vegetable|grain|dairy|spice|oil|condiment|other";
      "";
      Json.qq "Return JSON:{'dish_name':'" ++ dish_name request
        ++ Json.qq "','servings':" ++ str_int (servings request)
        ++ Json.qq ",'total_prep_time_minutes':0,'cuisine_type':'','difficulty':'medium','ingredients':[{'name':'','quantity':0,'unit':'grams','category':'','notes':''}],'cooking_instructions':[''],'cooking_tips':'','nutritional_info':{'calories_per_serving':0,'protein_grams':0,'carbs_grams':0,'fat_grams':0},'estimated_cost':'$0'}";
      "";
      "Short clear steps. Pro tips. Valid JSON only." ].

Section service.

(** The parsed values, the exceptions of the parser and [json.loads], as
    for the decoder; [str_exn] is [str] on those exceptions. *)
Variable J E : Type.
Variable json_loads : string -> Json.loaded J E.
Variable str_exn : E -> string.

(** [self._model.generate_content(prompt)] and the reading of
    [response.text]: the text, which may be [None], or the [str] of the
    exception raised by the call or by the reading. *)
Variable generate_content : string -> option string + string.

(** [GeminiService.generate_recipe]; [configured] is [self._configured].
    A text that is [None] or empty is falsy.  [except Exception] turns an
    exception that passes through [_parse_response] into an API_ERROR. *)
Definition generate_recipe (configured : bool) (request : RecipeRequest)
  : J + GeminiServiceError :=
  if negb configured then
    inr {| message := "Gemini API key not configured.";
           error_code := "NOT_CONFIGURED" |}
  else
    match generate_content (_build_prompt request) with
    | inr e =>
        inr {| message := "AI service error: " ++ e; error_code := "API_ERROR" |}
    | inl None | inl (Some "") =>
        inr {| message := "Empty response from AI";
               error_code := "EMPTY_RESPONSE" |}
    | inl (Some text) =>
        match _parse_response J E json_loads text with
        | Returns recipe_data => inl recipe_data
        | RaisesService e => inr e
        | RaisesOther e =>
            inr {| message := "AI service error: " ++ str_exn e;
                   error_code := "API_ERROR" |}
        end
    end.

End service.

End Gemini.

(** ** The recipe route and its errors *)

Module Api.

Import Decoder Gemini.
Local Open Scope string_scope.

(** [class APIError]; [details] is a [dict] of strings, or [None]. *)
Record APIError := mkAPIError {
  status_code : Z;
  api_message : string;
  api_error_code : string;
  details : option (list (string * string))
}.

(** [class ServiceUnavailableError] *)
Definition ServiceUnavailableError (msg : string)
    (d : option (list (string * string))) : APIError :=
  mkAPIError 503 msg "SERVICE_UNAVAILABLE" d.

(** [class InternalServerError] *)
Definition InternalServerError (msg : string)
    (d : option (list (string * string))) : APIError :=
  mkAPIError 500 msg "INTERNAL_ERROR" d.

(** How a call of the route ends: the response, an [APIError], or another
    exception, which the route does not catch. *)
Inductive outcome (R : Type) :=
| Returned (response : R)
| Raised (e : APIError)
| Unhandled (text : string).

Arguments Returned {R}.
Arguments Raised {R}.
Arguments Unhandled {R}.

Section route.

Variable J E : Type.
Variable json_loads : string -> Json.loaded J E.
Variable str_exn : E -> string.
Variable generate_content : string -> option string + string.

(** The call of [RecipeResponse] on the unpacked data: the validated
    response, or the [str] of the exception raised. *)
Variable R : Type.
Variable validate : J -> R + string.

(** The truth value of a parsed value, [if cached_recipe]. *)
Variable truthy : J -> bool.

(** [settings.cache_ttl_seconds] *)
Variable cache_ttl_seconds : Z.

(** [str(e)] for the [OverflowError] of the cache write. *)
Variable str_overflow : string.

(** The route [get_recipe] of [routes/recipe.py]; [now_get] and [now_set]
    are the clock readings of the cache lookup and of the cache write.  The
    validation and the cache write stand under [except Exception], the
    validation of a cached value does not. *)
Definition get_recipe (configured : bool) (now_get now_set : Z)
    (recipe_request : RecipeRequest) (c : Cache.InMemoryCache J)
  : outcome R * Cache.InMemoryCache J :=
  if negb configured then
    (Raised
       (ServiceUnavailableError
          "Gemini API key not configured. Please set GEMINI_API_KEY environment variable."
          (Some [("error_code", "GEMINI_NOT_CONFIGURED")])),
     c)
  else
    let '(cached_recipe, c1) :=
      Service.get_recipe now_get (dish_name recipe_request)
        (servings recipe_request) (dietary_restrictions recipe_request) c in
    let miss :=
      match generate_recipe J E json_loads str_exn generate_content configured
              recipe_request with
      | inr e =>
          if String.eqb (error_code e) "NOT_CONFIGURED"
          then (Raised (ServiceUnavailableError (message e) None), c1)
          else (Raised (InternalServerError (message e)
                          (Some [("error_code", error_code e)])), c1)
      | inl recipe_data =>
          match validate recipe_data with
          | inr text =>
              (Raised (InternalServerError "Failed to generate recipe"
                         (Some [("original_error", text)])), c1)
          | inl response =>
              match Service.set_recipe now_set (dish_name recipe_request)
                      (servings recipe_request) recipe_data
                      (dietary_restrictions recipe_request)
                      (Some cache_ttl_seconds) c1 with
              | (Cache.Stored, c2) => (Returned response, c2)
              | (Cache.OverflowError, c2) =>
                  (Raised (InternalServerError "Failed to generate recipe"
                             (Some [("original_error", str_overflow)])), c2)
              end
          end
      end in
    match cached_recipe with
    | Some data =>
        if truthy data then
          match validate data with
          | inl response => (Returned response, c1)
          | inr text => (Unhandled text, c1)
          end
        else miss
    | None => miss
    end.

End route.

End Api.

(** ** CORS configuration *)

Module Security.

Local Open Scope string_scope.

(** The arguments [configure_cors] gives to [CORSMiddleware]. *)
Record CORSMiddleware := mkCORSMiddleware {
  allow_origins : list string;
  allow_credentials : bool;
  allow_methods : list string;
  allow_headers : list string
}.

(** [configure_cors]; the three arguments are the CORS fields of the
    settings it reads. *)
Definition configure_cors (cors_origins cors_allow_methods cors_allow_headers
    : list string) : CORSMiddleware :=
  let origins :=
    if bool_decide ("*" ∈ cors_origins) then cors_origins else ["*"] in
  {| allow_origins := origins;
     allow_credentials := false;
     allow_methods := cors_allow_methods;
     allow_headers := cors_allow_headers |}.

End Security.

(** ** The Streamlit front end: the parse of the response

    The lines of [get_gemini_response] in [streamlit_app.py] between the
    reading of [response.text] and the [return]; the function turns every
    exception of the parser into [None]. *)

Module Streamlit.

Import PyStr.
Local Open Scope string_scope.

(** The text before the first fence in [s], all of [s] when it has none. *)
Fixpoint until_fence (s : string) : string :=
  match s with
  | "" => ""
  | String c r => if startswith "```" s then "" else String c (until_fence r)
  end.

(** The second piece of [text.split] at the fence, for a text that starts
    with the fence: what stands between the first fence and the next. *)
Definition second_piece (text : string) : string := until_fence (drop 3 text).

Section parse.

Variable J E : Type.
Variable json_loads : string -> Json.loaded J E.

Definition parse_text (response_text : string) : option J :=
  let text := strip response_text in
  let text :=
    if startswith "```" text then
      let text := second_piece text in
      if startswith "json" text then drop 4 text else text
    else text in
  let text := strip text in
  match json_loads text with
  | Json.Value v => Some v
  | Json.JSONDecodeError | Json.Raises _ => None
  end.

End parse.

End Streamlit.

(** * Properties *)

(** ** CacheStore *)

Module CacheFacts.

Import Cache.
Local Open Scope string_scope.

Section facts.

Context {V : Type}.
Implicit Types (c : InMemoryCache V) (m : gmap string (CacheEntry V)).
Implicit Types (order keys : list string) (k key : string).

(** *** The recency list *)

Lemma list_remove_subseteq key order : list_remove key order ⊆ order.
Proof.
  induction order as [|x r IH]; simpl; [done|].
  destruct (decide (x = key)); set_solver.
Qed.

Lemma elem_of_list_remove key order k :
  NoDup order → k ∈ list_remove key order ↔ k ∈ order ∧ k ≠ key.
Proof.
  induction 1 as [|x r Hx Hr IH]; simpl.
  - set_solver.
  - destruct (decide (x = key)) as [->|Hne].
    + split; [|set_solver]. intros Hk. split; [set_solver|]. by intros ->.
    + rewrite elem_of_cons, IH. set_solver.
Qed.

Lemma NoDup_list_remove key order : NoDup order → NoDup (list_remove key order).
Proof.
  induction 1 as [|x r Hx Hr IH]; simpl; [constructor|].
  destruct (decide (x = key)); [done|].
  constructor; [|done]. intros Hin. apply Hx. by apply list_remove_subseteq in Hin.
Qed.

Lemma NoDup_touch key order : NoDup order → NoDup (touch key order).
Proof.
  intros Hnd. unfold touch. apply NoDup_app. split; [by apply NoDup_list_remove|].
  split; [|apply NoDup_singleton].
  intros x Hx. apply elem_of_list_remove in Hx; [|done]. set_solver.
Qed.

Lemma elem_of_touch key order k :
  NoDup order → k ∈ touch key order ↔ k ∈ order ∨ k = key.
Proof.
  intros Hnd. unfold touch. rewrite elem_of_app, elem_of_list_remove by done.
  rewrite list_elem_of_singleton. destruct (decide (k = key)); naive_solver.
Qed.

(** *** The invariant, on the two components of the state *)

Definition wf_parts m order : Prop :=
  NoDup order ∧ ∀ k, k ∈ order ↔ is_Some (m !! k).

Lemma wf_parts_delete m order key :
  wf_parts m order → wf_parts (delete key m) (list_remove key order).
Proof.
  intros [Hnd Hdom]. split; [by apply NoDup_list_remove|].
  intros k. rewrite elem_of_list_remove by done. rewrite Hdom.
  rewrite lookup_delete_is_Some. naive_solver.
Qed.

Lemma wf_parts_insert m order key e :
  wf_parts m order → wf_parts (<[key:=e]> m) (touch key order).
Proof.
  intros [Hnd Hdom]. split; [by apply NoDup_touch|].
  intros k. rewrite elem_of_touch by done. rewrite Hdom, lookup_insert_is_Some.
  destruct (decide (key = k)); naive_solver.
Qed.

Lemma wf_parts_touch m order key :
  wf_parts m order → is_Some (m !! key) → wf_parts m (touch key order).
Proof.
  intros [Hnd Hdom] Hk. split; [by apply NoDup_touch|].
  intros k. rewrite elem_of_touch by done. rewrite Hdom. naive_solver.
Qed.

Lemma wf_parts_size m order : wf_parts m order → size m = length order.
Proof.
  intros [Hnd Hdom]. rewrite <- size_dom.
  rewrite <- (size_list_to_set (C:=gset string) order) by done.
  f_equal. apply set_eq. intros k.
  rewrite elem_of_dom, elem_of_list_to_set. by rewrite Hdom.
Qed.

Lemma wf_parts_pop m oldest rest :
  wf_parts m (oldest :: rest) → wf_parts (delete oldest m) rest.
Proof.
  intros Hwf. apply (wf_parts_delete _ _ oldest) in Hwf. simpl in Hwf.
  by rewrite decide_True in Hwf.
Qed.

Lemma wf_parts_evict max_size m order :
  wf_parts m order →
  wf_parts (evict max_size m order).1 (evict max_size m order).2.
Proof.
  revert m. induction order as [|x r IH]; intros m Hwf; simpl; [done|].
  destruct (Z.of_nat (size m) >=? max_size); [|done].
  by apply IH, wf_parts_pop.
Qed.

(** When the loop of [set] ends the store is below its bound, for a bound of
    one entry or more. *)
Lemma evict_below max_size m order :
  1 <= max_size → wf_parts m order →
  Z.of_nat (size (evict max_size m order).1) < max_size.
Proof.
  intros Hpos. revert m. induction order as [|x r IH]; intros m Hwf; simpl.
  - apply wf_parts_size in Hwf. simpl in Hwf. lia.
  - destruct (Z.of_nat (size m) >=? max_size) eqn:Hge; [|simpl; lia].
    by apply IH, wf_parts_pop.
Qed.

(** On a full store the loop takes exactly one turn. *)
Lemma evict_full max_size m oldest rest :
  wf_parts m (oldest :: rest) → Z.of_nat (size m) = max_size →
  evict max_size m (oldest :: rest) = (delete oldest m, rest).
Proof.
  intros Hwf Hfull. simpl.
  assert (Hin : is_Some (m !! oldest)) by (apply Hwf; set_solver).
  destruct Hin as [e He].
  assert (Hsz : size m = S (size (delete oldest m))).
  { rewrite <- (insert_delete_id m oldest e) at 1 by done.
    rewrite map_size_insert_None; [done|]. apply lookup_delete_eq. }
  replace (Z.of_nat (size m) >=? max_size) with true by lia.
  destruct rest as [|y r]; simpl; [done|].
  by replace (Z.of_nat (size (delete oldest m)) >=? max_size) with false by lia.
Qed.

(** *** Every call keeps the invariant *)

Lemma wf_init max_size default_ttl : wf (init (V:=V) max_size default_ttl).
Proof.
  split; simpl; [constructor|]. intros k. rewrite lookup_empty.
  split; [set_solver|]. by intros [].
Qed.

Lemma wf_drop key c : wf c → wf (drop key c).
Proof. intros H. by apply wf_parts_delete. Qed.

Lemma wf_get now key c : wf c → wf (get now key c).2.
Proof.
  intros Hwf. unfold get. destruct (_cache c !! key) as [e|] eqn:He; [|done].
  destruct (is_expired now e); simpl; [by apply wf_drop|].
  apply wf_parts_touch; simpl; [done|]. by rewrite He.
Qed.

(** *** The two ways [set] ends *)

Lemma new_entry_value now (v : V) ttl e :
  new_entry now v (Some ttl) = Some e →
  value e = v ∧ created_at e = now
  ∧ expires_at e = if (ttl =? 0)%Z then None else Some (now + timedelta ttl).
Proof.
  unfold new_entry, expiry. destruct (ttl =? 0)%Z; [by intros [= <-]|].
  destruct (timedelta_overflows ttl); [done|].
  destruct (is_datetime (now + timedelta ttl)); [|done]. by intros [= <-].
Qed.

Lemma new_entry_zero now (v : V) :
  new_entry now v (Some 0)
  = Some {| value := v; created_at := now; expires_at := None |}.
Proof. done. Qed.

Lemma set_stored now key v ttl c e :
  new_entry now v (Some (match ttl with Some t => t | None => _default_ttl c end))
  = Some e →
  set now key v ttl c
  = (Stored,
     {| _cache := <[key := e]> (evict (_max_size c) (_cache c) (_access_order c)).1;
        _max_size := _max_size c;
        _default_ttl := _default_ttl c;
        _access_order :=
          touch key (evict (_max_size c) (_cache c) (_access_order c)).2 |}).
Proof. intros He. unfold set. destruct (evict _ _ _). by rewrite He. Qed.

Lemma set_raised now key v ttl c :
  new_entry now v (Some (match ttl with Some t => t | None => _default_ttl c end))
  = None →
  set now key v ttl c
  = (OverflowError,
     {| _cache := (evict (_max_size c) (_cache c) (_access_order c)).1;
        _max_size := _max_size c;
        _default_ttl := _default_ttl c;
        _access_order := (evict (_max_size c) (_cache c) (_access_order c)).2 |}).
Proof. intros He. unfold set. destruct (evict _ _ _). by rewrite He. Qed.

Lemma set_Stored_entry now key v ttl c c1 :
  set now key v ttl c = (Stored, c1) →
  ∃ e, new_entry now v
         (Some (match ttl with Some t => t | None => _default_ttl c end)) = Some e
       ∧ _cache c1 = <[key := e]> (evict (_max_size c) (_cache c) (_access_order c)).1
       ∧ _access_order c1
         = touch key (evict (_max_size c) (_cache c) (_access_order c)).2.
Proof.
  destruct (new_entry now v
              (Some (match ttl with Some t => t | None => _default_ttl c end)))
    as [e|] eqn:He.
  - rewrite (set_stored _ _ _ _ _ _ He). intros [= <-]. eauto.
  - by rewrite (set_raised _ _ _ _ _ He).
Qed.

Lemma returns_set now key v ttl c :
  returns c (OpSet now key v ttl) = true ↔
  is_Some (new_entry now v
             (Some (match ttl with Some t => t | None => _default_ttl c end))).
Proof.
  cbn [returns].
  destruct (new_entry now v
              (Some (match ttl with Some t => t | None => _default_ttl c end)))
    as [e|] eqn:He.
  - rewrite (set_stored _ _ _ _ _ _ He). simpl. split; [eauto|done].
  - rewrite (set_raised _ _ _ _ _ He). simpl. split; [done|by intros []].
Qed.

Lemma wf_set now key v ttl c : wf c → wf (set now key v ttl c).2.
Proof.
  intros Hwf. unfold set.
  pose proof (wf_parts_evict (_max_size c) _ _ Hwf) as He.
  destruct (evict _ _ _) as [m order].
  destruct (new_entry _ _ _); [by apply wf_parts_insert|done].
Qed.

Lemma wf_delete_key key c : wf c → wf (delete_key key c).2.
Proof.
  intros Hwf. unfold delete_key.
  destruct (_cache c !! key); [by apply wf_drop|done].
Qed.

Lemma wf_clear c : wf (clear c).
Proof. apply (wf_init (_max_size c) (_default_ttl c)). Qed.

Lemma wf_foldl_drop keys c : wf c → wf (foldl (λ acc key, drop key acc) c keys).
Proof.
  revert c. induction keys as [|k r IH]; intros c Hwf; simpl; [done|].
  apply IH. by apply wf_drop.
Qed.

Lemma wf_size_op now c : wf c → wf (size_op now c).2.
Proof. intros Hwf. by apply wf_foldl_drop. Qed.

Lemma wf_step c o : wf c → wf (step c o).
Proof.
  intros Hwf. destruct o; cbn [step];
    [by apply wf_get|by apply wf_set|by apply wf_delete_key|apply wf_clear
    |by apply wf_size_op].
Qed.

Lemma wf_run ops c : wf c → wf (run c ops).
Proof.
  unfold run. revert c.
  induction ops as [|o r IH]; intros c Hwf; cbn [foldl]; [done|].
  apply IH. by apply wf_step.
Qed.

(** *** The bound *)

Lemma entries_drop key c : entries (drop key c) <= entries c.
Proof.
  unfold entries, drop. simpl.
  pose proof (map_subseteq_size _ _ (delete_subseteq (_cache c) key)). lia.
Qed.

Lemma entries_foldl_drop keys c :
  entries (foldl (λ acc key, drop key acc) c keys) <= entries c.
Proof.
  revert c. induction keys as [|k r IH]; intros c; simpl; [lia|].
  specialize (IH (drop k c)). pose proof (entries_drop k c). lia.
Qed.

Lemma max_size_foldl_drop keys c :
  _max_size (foldl (λ acc key, drop key acc) c keys) = _max_size c.
Proof.
  revert c. induction keys as [|k r IH]; intros c; simpl; [done|]. by rewrite IH.
Qed.

Lemma max_size_step c o : _max_size (step c o) = _max_size c.
Proof.
  destruct o; cbn [step].
  - unfold get. destruct (_cache c !! key) as [e|]; [|done].
    by destruct (is_expired now e).
  - unfold set. destruct (evict _ _ _). by destruct (new_entry _ _ _).
  - unfold delete_key. by destruct (_cache c !! key).
  - done.
  - apply max_size_foldl_drop.
Qed.

Lemma default_ttl_foldl_drop keys c :
  _default_ttl (foldl (λ acc key, drop key acc) c keys) = _default_ttl c.
Proof.
  revert c. induction keys as [|k r IH]; intros c; simpl; [done|]. by rewrite IH.
Qed.

Lemma default_ttl_step c o : _default_ttl (step c o) = _default_ttl c.
Proof.
  destruct o; cbn [step].
  - unfold get. destruct (_cache c !! key) as [e|]; [|done].
    by destruct (is_expired now e).
  - unfold set. destruct (evict _ _ _). by destruct (new_entry _ _ _).
  - unfold delete_key. by destruct (_cache c !! key).
  - done.
  - apply default_ttl_foldl_drop.
Qed.

Lemma max_size_run ops c : _max_size (run c ops) = _max_size c.
Proof.
  unfold run. revert c.
  induction ops as [|o r IH]; intros c; cbn [foldl]; [done|].
  by rewrite IH, max_size_step.
Qed.

Lemma entries_set now key v ttl c :
  wf c → 1 <= _max_size c → entries (set now key v ttl c).2 <= _max_size c.
Proof.
  intros Hwf Hpos. unfold set, entries.
  pose proof (evict_below (_max_size c) _ _ Hpos Hwf) as Hlt.
  destruct (evict _ _ _) as [m order]. cbn [fst] in Hlt.
  destruct (new_entry now v _); cbn [snd _cache]; [|lia].
  rewrite map_size_insert. destruct (m !! key); simpl; lia.
Qed.

Lemma entries_step c o :
  wf c → 1 <= _max_size c → entries c <= _max_size c →
  entries (step c o) <= _max_size c.
Proof.
  intros Hwf Hpos Hle. destruct o; cbn [step].
  - unfold get. destruct (_cache c !! key) as [e|]; [|done].
    destruct (is_expired now e); simpl; [|done].
    pose proof (entries_drop key c). lia.
  - by apply entries_set.
  - unfold delete_key. destruct (_cache c !! key); simpl; [|done].
    pose proof (entries_drop key c). lia.
  - unfold entries, clear. simpl. rewrite map_size_empty. lia.
  - pose proof (entries_foldl_drop (expired_keys now (_cache c)) c). simpl. lia.
Qed.

Lemma entries_run ops c :
  wf c → 1 <= _max_size c → entries c <= _max_size c →
  entries (run c ops) <= _max_size c.
Proof.
  unfold run. revert c.
  induction ops as [|o r IH]; intros c Hwf Hpos Hle; cbn [foldl]; [done|].
  rewrite <- (max_size_step c o). apply IH.
  - by apply wf_step.
  - by rewrite max_size_step.
  - rewrite max_size_step. by apply entries_step.
Qed.

(** *** Reading *)

Lemma get_result now key c :
  (get now key c).1 =
  match _cache c !! key with
  | Some e => if is_expired now e then None else Some (value e)
  | None => None
  end.
Proof.
  unfold get. destruct (_cache c !! key) as [e|]; [|done].
  by destruct (is_expired now e).
Qed.

Lemma get_live now key c e :
  _cache c !! key = Some e → is_expired now e = false →
  get now key c =
  (Some (value e),
   {| _cache := _cache c; _max_size := _max_size c;
      _default_ttl := _default_ttl c;
      _access_order := touch key (_access_order c) |}).
Proof. intros Hk He. unfold get. by rewrite Hk, He. Qed.

Lemma not_expired_within now t (v : V) ttl e :
  new_entry t v (Some ttl) = Some e →
  ttl = 0 ∨ now <= t + timedelta ttl →
  is_expired now e = false.
Proof.
  intros (_ & _ & Hx)%new_entry_value H. unfold is_expired. rewrite Hx.
  destruct (Z.eqb_spec ttl 0); [done|]. destruct H; [done|]. lia.
Qed.

Lemma never_expired now (e : CacheEntry V) :
  expires_at e = None → is_expired now e = false.
Proof. unfold is_expired. by intros ->. Qed.

Lemma elem_of_expired_keys now m k :
  k ∈ expired_keys now m ↔ ∃ e, m !! k = Some e ∧ is_expired (now k) e = true.
Proof.
  unfold expired_keys. rewrite list_elem_of_fmap. split.
  - intros [[k' e] [-> Hin]]. apply elem_of_map_to_list in Hin.
    apply map_lookup_filter_Some in Hin. simpl in *. eauto.
  - intros [e [Hk He]]. exists (k, e). split; [done|].
    apply elem_of_map_to_list. by apply map_lookup_filter_Some.
Qed.

Lemma lookup_foldl_drop keys c k :
  k ∉ keys → _cache (foldl (λ acc key, drop key acc) c keys) !! k = _cache c !! k.
Proof.
  revert c. induction keys as [|x r IH]; intros c Hk; simpl; [done|].
  rewrite IH by set_solver. simpl. apply lookup_delete_ne. set_solver.
Qed.

Lemma lookup_size_op now c k e :
  _cache c !! k = Some e → expires_at e = None →
  _cache (size_op now c).2 !! k = Some e.
Proof.
  intros Hk He. unfold size_op. cbn [snd]. rewrite lookup_foldl_drop; [done|].
  rewrite elem_of_expired_keys. intros [e' [Hk' Hx]].
  assert (e' = e) as -> by congruence. by rewrite never_expired in Hx.
Qed.

Lemma lookup_read_step c o k e :
  is_read o = true → _cache c !! k = Some e → expires_at e = None →
  _cache (step c o) !! k = Some e.
Proof.
  intros Hr Hk He. destruct o; try discriminate; cbn [step].
  - unfold get. destruct (_cache c !! key) as [e'|] eqn:Hkey; [|done].
    destruct (is_expired now e') eqn:Hx; [|done]. simpl.
    rewrite lookup_delete_ne; [done|]. intros ->.
    assert (e' = e) as -> by congruence. by rewrite never_expired in Hx.
  - by apply lookup_size_op.
Qed.

Lemma lookup_read_run reads c k e :
  forallb is_read reads = true → _cache c !! k = Some e → expires_at e = None →
  _cache (run c reads) !! k = Some e.
Proof.
  unfold run. revert c.
  induction reads as [|o r IH]; intros c Hr Hk He; cbn [foldl]; [done|].
  simpl in Hr. apply andb_prop in Hr as [Ho Hr].
  apply IH; [done| |done]. by apply lookup_read_step.
Qed.

Lemma lookup_set now key v ttl c c1 :
  set now key v ttl c = (Stored, c1) →
  ∃ e, new_entry now v
         (Some (match ttl with Some t => t | None => _default_ttl c end)) = Some e
       ∧ _cache c1 !! key = Some e.
Proof.
  intros (e & He & Hm & _)%set_Stored_entry. exists e. split; [done|].
  rewrite Hm. apply lookup_insert_eq.
Qed.


(** C9: in a cache that holds exactly [max_size] entries, [set] on a key that
    is already stored and is not the least recently used one still evicts
    the least recently used entry (the head of the recency list): that entry
    was stored and is gone, and one entry fewer is stored.  When [set]
    returns, the key holds the new value; when it raises [OverflowError],
    for an expiry that is no [datetime], the eviction has happened all the
    same and the key holds the entry it held. *)
Theorem overwrite_evicts (max_size default_ttl : Z) (ops : list (op V))
    (now : Z) (key : string) (v : V) (ttl : option Z)
    (oldest : string) (rest : list string) :
  let c := run (init max_size default_ttl) ops in
  _access_order c = oldest :: rest →
  key ≠ oldest →
  is_Some (_cache c !! key) →
  entries c = max_size →
  let c' := (set now key v ttl c).2 in
  is_Some (_cache c !! oldest) ∧
  _cache c' !! oldest = None ∧
  entries c' = max_size - 1 ∧
  match (set now key v ttl c).1 with
  | Stored => value <$> _cache c' !! key = Some v
  | OverflowError => _cache c' !! key = _cache c !! key
  end.
Proof.
  intros c Horder Hne Hkey Hfull c'.
  assert (Hwf : wf c) by apply (wf_run ops), wf_init.
  assert (Hms : _max_size c = max_size) by apply max_size_run.
  assert (Hold : is_Some (_cache c !! oldest)).
  { apply Hwf. rewrite Horder. set_solver. }
  split; [done|].
  assert (Hev : evict (_max_size c) (_cache c) (_access_order c)
                = (delete oldest (_cache c), rest)).
  { rewrite Hms, Horder. apply evict_full; [by rewrite <- Horder|done]. }
  assert (Hsz : Z.of_nat (size (delete oldest (_cache c))) = max_size - 1).
  { rewrite map_size_delete_Some by done. unfold entries in Hfull.
    pose proof (map_size_ne_0_lookup_2 _ _ Hold). lia. }
  subst c'.
  destruct (new_entry now v
              (Some (match ttl with Some t => t | None => _default_ttl c end)))
    as [e|] eqn:He.
  - rewrite (set_stored _ _ _ _ _ _ He), Hev. cbn [fst snd _cache].
    split; [|split].
    + rewrite lookup_insert_ne by done. apply lookup_delete_eq.
    + unfold entries. cbn [_cache]. rewrite map_size_insert_Some; [done|].
      by rewrite lookup_delete_ne.
    + rewrite lookup_insert_eq. simpl. f_equal.
      by apply new_entry_value in He as [? _].
  - rewrite (set_raised _ _ _ _ _ He), Hev. cbn [fst snd _cache].
    split; [apply lookup_delete_eq|]. split; [done|].
    by rewrite lookup_delete_ne.
Qed.

(** C8: [set] with [ttl = 0], or without a ttl on a cache whose default TTL
    is 0, returns and stores an entry whose [expires_at] is [None]; after
    any later [get] and [size] calls, at any clock readings, [get] on the
    key still returns the value and [size] still counts the entry. *)
Theorem zero_ttl_never_expires c (now : Z) key (v : V) (ttl : option Z)
    (reads : list (op V)) (t : Z) (ts : string → Z) :
  ttl = Some 0 ∨ (ttl = None ∧ _default_ttl c = 0) →
  forallb is_read reads = true →
  let c1 := (set now key v ttl c).2 in
  let c2 := run c1 reads in
  (set now key v ttl c).1 = Stored ∧
  _cache c1 !! key = Some {| value := v; created_at := now; expires_at := None |} ∧
  (get t key c2).1 = Some v ∧
  is_Some (_cache (size_op ts c2).2 !! key) ∧
  1 <= (size_op ts c2).1.
Proof.
  intros Httl Hreads c1 c2.
  set (e := {| value := v; created_at := now; expires_at := None |}).
  assert (He : new_entry now v
                 (Some (match ttl with Some t => t | None => _default_ttl c end))
               = Some e).
  { destruct Httl as [->|[-> ->]]; apply new_entry_zero. }
  assert (H1 : _cache c1 !! key = Some e).
  { subst c1. rewrite (set_stored _ _ _ _ _ _ He). apply lookup_insert_eq. }
  assert (H2 : _cache c2 !! key = Some e) by (by apply lookup_read_run).
  assert (H3 : _cache (size_op ts c2).2 !! key = Some e) by (by apply lookup_size_op).
  split; [by rewrite (set_stored _ _ _ _ _ _ He)|].
  split; [done|]. split; [|split].
  - rewrite get_result, H2. reflexivity.
  - by rewrite H3.
  - unfold size_op in *. cbn [fst snd] in *.
    pose proof (map_size_ne_0_lookup_2 _ _ (mk_is_Some _ _ H3)). lia.
Qed.

End facts.

(** The calls of the example: [set(a,1); set(b,2); get(a); set(c,3)], at the
    clock readings [ta], [tb], [tg] and [tc]. *)
Definition lru_calls (ta tb tg tc : Z) : list (op Z) :=
  [OpSet ta "a" 1 None; OpSet tb "b" 2 None; OpGet tg "a"; OpSet tc "c" 3 None].

(** The same without the [get]. *)
Definition fifo_calls (ta tb tc : Z) : list (op Z) :=
  [OpSet ta "a" 1 None; OpSet tb "b" 2 None; OpSet tc "c" 3 None].

(** C2: with [max_size = 2], after [set(a,1); set(b,2); get(a); set(c,3)],
    [get(b)] is empty while [get(a)] and [get(c)] return their values,
    whenever the calls of the sequence return (no [set] raises
    [OverflowError]) and the clock has not passed the expiry of [a] and [c];
    without the [get(a)] the same calls, which then return as well, evict
    [a] and keep [b]: eviction follows the last touch, not the insertion. *)
Theorem lru_example (default_ttl ta tb tg tc t : Z) :
  all_return (init 2 default_ttl) (lru_calls ta tb tg tc) = true →
  default_ttl = 0
  ∨ (tg <= ta + timedelta default_ttl ∧ t <= ta + timedelta default_ttl
     ∧ t <= tb + timedelta default_ttl ∧ t <= tc + timedelta default_ttl) →
  let c := run (init 2 default_ttl) (lru_calls ta tb tg tc) in
  let c' := run (init 2 default_ttl) (fifo_calls ta tb tc) in
  ((get t "b" c).1 = None ∧ (get t "a" c).1 = Some 1 ∧ (get t "c" c).1 = Some 3)
  ∧ all_return (init 2 default_ttl) (fifo_calls ta tb tc) = true
  ∧ ((get t "a" c').1 = None ∧ (get t "b" c').1 = Some 2 ∧ (get t "c" c').1 = Some 3).
Proof.
  intros Hret H c c'.
  unfold lru_calls in Hret. cbn [all_return] in Hret.
  apply andb_prop in Hret as [Ra Hret]. apply andb_prop in Hret as [Rb Hret].
  apply andb_prop in Hret as [_ Hret]. apply andb_prop in Hret as [Rc _].
  apply returns_set in Ra as [ea Hea]. apply returns_set in Rb as [eb Heb].
  apply returns_set in Rc as [ec Hec].
  repeat rewrite default_ttl_step in Heb. repeat rewrite default_ttl_step in Hec.
  cbn [_default_ttl init] in Hea, Heb, Hec.
  assert (Hg : is_expired tg ea = false)
    by (eapply not_expired_within; [exact Hea|tauto]).
  assert (Ha : is_expired t ea = false)
    by (eapply not_expired_within; [exact Hea|tauto]).
  assert (Hb : is_expired t eb = false)
    by (eapply not_expired_within; [exact Heb|tauto]).
  assert (Hc : is_expired t ec = false)
    by (eapply not_expired_within; [exact Hec|tauto]).
  assert (E : c = {| _cache := <["c" := ec]> (<["a" := ea]> ∅);
                     _max_size := 2; _default_ttl := default_ttl;
                     _access_order := ["a"; "c"] |}).
  { subst c. unfold run, lru_calls. cbn [foldl step].
    erewrite (set_stored ta "a"); [|exact Hea]. cbn [snd].
    erewrite (set_stored tb "b"); [|exact Heb]. cbn [snd].
    erewrite (get_live tg "a"); [|reflexivity|exact Hg]. cbn [snd].
    erewrite (set_stored tc "c"); [|exact Hec]. reflexivity. }
  assert (E' : c' = {| _cache := <["c" := ec]> (<["b" := eb]> ∅);
                       _max_size := 2; _default_ttl := default_ttl;
                       _access_order := ["b"; "c"] |}).
  { subst c'. unfold run, fifo_calls. cbn [foldl step].
    erewrite (set_stored ta "a"); [|exact Hea]. cbn [snd].
    erewrite (set_stored tb "b"); [|exact Heb]. cbn [snd].
    erewrite (set_stored tc "c"); [|exact Hec]. reflexivity. }
  assert (R' : all_return (init 2 default_ttl) (fifo_calls ta tb tc) = true).
  { unfold fifo_calls. cbn [all_return].
    repeat (apply andb_true_intro; split); try done;
      apply returns_set; rewrite ?default_ttl_step; cbn [_default_ttl init]; eauto. }
  split; [|split; [exact R'|]].
  - rewrite !get_result, E. cbn [_cache].
    rewrite (lookup_insert_ne _ "c" "b"), (lookup_insert_ne _ "c" "a") by done.
    rewrite (lookup_insert_ne _ "a" "b") by done.
    rewrite !lookup_insert_eq, !lookup_empty, Ha, Hc.
    assert (Va : value ea = 1) by (by apply new_entry_value in Hea as [? _]).
    assert (Vc : value ec = 3) by (by apply new_entry_value in Hec as [? _]).
    by rewrite Va, Vc.
  - rewrite !get_result, E'. cbn [_cache].
    rewrite (lookup_insert_ne _ "c" "b"), (lookup_insert_ne _ "c" "a") by done.
    rewrite (lookup_insert_ne _ "b" "a") by done.
    rewrite !lookup_insert_eq, !lookup_empty, Hb, Hc.
    assert (Vb : value eb = 2) by (by apply new_entry_value in Heb as [? _]).
    assert (Vc : value ec = 3) by (by apply new_entry_value in Hec as [? _]).
    by rewrite Vb, Vc.
Qed.

Lemma lru_example_witness :
  ((get 30 "b" (run (init 2 3600) (lru_calls 0 10 20 25))).1 = None
   ∧ (get 30 "a" (run (init 2 3600) (lru_calls 0 10 20 25))).1 = Some 1
   ∧ (get 30 "c" (run (init 2 3600) (lru_calls 0 10 20 25))).1 = Some 3)
  ∧ all_return (init 2 3600) (fifo_calls 0 10 25) = true
  ∧ ((get 30 "a" (run (init 2 3600) (fifo_calls 0 10 25))).1 = None
     ∧ (get 30 "b" (run (init 2 3600) (fifo_calls 0 10 25))).1 = Some 2
     ∧ (get 30 "c" (run (init 2 3600) (fifo_calls 0 10 25))).1 = Some 3).
Proof.
  apply (lru_example 3600 0 10 20 25 30).
  - vm_compute. reflexivity.
  - right. vm_compute. repeat split; discriminate.
Defined.

Definition two_sets : list (op Z) := [OpSet 0 "a" 1 None; OpSet 5 "b" 2 None].



Lemma overwrite_evicts_witness :
  is_Some (_cache (run (init 2 3600) two_sets) !! "a")
  ∧ _cache (set 7 "b" 20 None (run (init 2 3600) two_sets)).2 !! "a" = None
  ∧ entries (set 7 "b" 20 None (run (init 2 3600) two_sets)).2 = 2 - 1
  ∧ match (set 7 "b" 20 None (run (init 2 3600) two_sets)).1 with
    | Stored =>
        value <$> _cache (set 7 "b" 20 None (run (init 2 3600) two_sets)).2 !! "b"
        = Some 20
    | OverflowError =>
        _cache (set 7 "b" 20 None (run (init 2 3600) two_sets)).2 !! "b"
        = _cache (run (init 2 3600) two_sets) !! "b"
    end.
Proof.
  apply (overwrite_evicts 2 3600 two_sets 7 "b" 20 None "a" ["b"]).
  - reflexivity.
  - discriminate.
  - vm_compute. eexists. reflexivity.
  - reflexivity.
Defined.

Lemma zero_ttl_never_expires_witness :
  (set 0 "k" 7 (Some 0) (init 2 3600)).1 = Stored
  ∧ _cache (set 0 "k" 7 (Some 0) (init 2 3600)).2 !! "k"
    = Some {| value := 7; created_at := 0; expires_at := None |}
  ∧ (get 1000000000000000 "k"
       (run (set 0 "k" 7 (Some 0) (init 2 3600)).2
            [OpGet 4000000000 "k"; OpSize (λ _, 9000000000); OpGet 1 "j"])).1 = Some 7
  ∧ is_Some (_cache (size_op (λ _, 1000000000000000)
       (run (set 0 "k" 7 (Some 0) (init 2 3600)).2
            [OpGet 4000000000 "k"; OpSize (λ _, 9000000000); OpGet 1 "j"])).2 !! "k")
  ∧ 1 <= (size_op (λ _, 1000000000000000)
       (run (set 0 "k" 7 (Some 0) (init 2 3600)).2
            [OpGet 4000000000 "k"; OpSize (λ _, 9000000000); OpGet 1 "j"])).1.
Proof.
  apply (zero_ttl_never_expires (init 2 3600) 0 "k" 7 (Some 0)
           [OpGet 4000000000 "k"; OpSize (λ _, 9000000000); OpGet 1 "j"]
           1000000000000000 (λ _, 1000000000000000)).
  - left. reflexivity.
  - reflexivity.
Defined.

End CacheFacts.

(** ** KeyGenerator *)

Module KeyGenFacts.

Import PyStr KeyGen.
Local Open Scope string_scope.

(** *** The order of strings *)

Definition sle (a b : string) : Prop := String.leb a b = true.

Lemma sle_cases a b : sle a b ↔ String.compare a b = Lt ∨ a = b.
Proof.
  unfold sle, String.leb. split.
  - destruct (String.compare a b) eqn:E; [|by left|done].
    right. by apply String.compare_eq_iff.
  - intros [->| ->]; [done|].
    pose proof (proj2 (OrderedTypeEx.String_as_OT.cmp_eq b b) eq_refl) as E.
    unfold OrderedTypeEx.String_as_OT.cmp in E. by rewrite E.
Qed.

Lemma sle_trans a b c : sle a b → sle b c → sle a c.
Proof.
  rewrite !sle_cases. intros [Hab| ->] [Hbc| ->]; auto.
  left. apply OrderedTypeEx.String_as_OT.cmp_lt.
  eapply OrderedTypeEx.String_as_OT.lt_trans;
    by apply OrderedTypeEx.String_as_OT.cmp_lt.
Qed.

Lemma sle_antisym a b : sle a b → sle b a → a = b.
Proof. apply String.leb_antisym. Qed.

Lemma sle_total a b : sle a b ∨ sle b a.
Proof. apply String.leb_total. Qed.

(** *** [sorted] returns the one ordered arrangement of its argument *)

Lemma insert_sorted_perm x l : Permutation (insert_sorted x l) (x :: l).
Proof.
  induction l as [|y r IH]; simpl; [done|].
  destruct (String.leb x y); [done|].
  rewrite IH. apply perm_swap.
Qed.

Lemma sorted_perm l : Permutation (sorted l) l.
Proof.
  induction l as [|x r IH]; simpl; [done|].
  rewrite insert_sorted_perm. by constructor.
Qed.

Lemma insert_sorted_ordered x l :
  StronglySorted sle l → StronglySorted sle (insert_sorted x l).
Proof.
  induction 1 as [|y r Hr IH Hy]; simpl.
  - repeat constructor.
  - destruct (String.leb x y) eqn:Hxy.
    + constructor; [by constructor|]. constructor; [done|].
      eapply Forall_impl; [exact Hy|]. intros z Hz. by apply (sle_trans x y z).
    + constructor; [done|].
      rewrite insert_sorted_perm.
      constructor; [|done].
      destruct (sle_total x y) as [H|H]; [|done]. unfold sle in H. congruence.
Qed.

Lemma sorted_ordered l : StronglySorted sle (sorted l).
Proof.
  induction l as [|x r IH]; simpl; [constructor|]. by apply insert_sorted_ordered.
Qed.

Lemma ordered_unique l1 l2 :
  StronglySorted sle l1 → StronglySorted sle l2 → Permutation l1 l2 → l1 = l2.
Proof.
  intros H1. revert l2. induction H1 as [|x r1 Hr1 IH Hx]; intros l2 H2 Hp.
  - by apply Permutation_nil in Hp.
  - destruct H2 as [|y r2 Hr2 Hy].
    + symmetry in Hp. by apply Permutation_nil in Hp.
    + assert (x = y) as ->.
      { apply sle_antisym.
        - assert (Hin : In y (x :: r1)).
          { eapply Permutation_in; [symmetry; exact Hp|]. by left. }
          destruct Hin as [->|Hin]; [apply sle_cases; by right|].
          rewrite List.Forall_forall in Hx. by apply Hx.
        - assert (Hin : In x (y :: r2)).
          { eapply Permutation_in; [exact Hp|]. by left. }
          destruct Hin as [->|Hin]; [apply sle_cases; by right|].
          rewrite List.Forall_forall in Hy. by apply Hy. }
      f_equal. apply IH; [done|]. by apply Permutation_cons_inv in Hp.
Qed.

Lemma sorted_permutation l1 l2 : Permutation l1 l2 → sorted l1 = sorted l2.
Proof.
  intros Hp. apply ordered_unique; try apply sorted_ordered.
  by rewrite !sorted_perm.
Qed.

(** *** [lower] and [strip] *)

Lemma lower_char_isspace c : isspace c = true → lower_char c = c.
Proof. destruct c as [[] [] [] [] [] [] [] []]; first [reflexivity | discriminate]. Qed.

Lemma lower_app a b : lower (a ++ b) = lower a ++ lower b.
Proof. induction a as [|c a IH]; simpl; [done|]. by rewrite IH. Qed.

Lemma lower_all_isspace w : all isspace w = true → lower w = w.
Proof.
  induction w as [|c w IH]; simpl; [done|].
  intros [Hc Hw]%andb_prop. by rewrite lower_char_isspace, IH.
Qed.

Section strip.

Variable p : ascii → bool.

Lemma lstrip_by_all w : all p w = true → lstrip_by p w = "".
Proof.
  induction w as [|c w IH]; simpl; [done|].
  intros [Hc Hw]%andb_prop. rewrite Hc. by apply IH.
Qed.

Lemma rstrip_by_all w : all p w = true → rstrip_by p w = "".
Proof.
  induction w as [|c w IH]; simpl; [done|].
  intros [Hc Hw]%andb_prop. by rewrite IH, Hc.
Qed.

Lemma lstrip_by_app_l w s : all p w = true → lstrip_by p (w ++ s) = lstrip_by p s.
Proof.
  induction w as [|c w IH]; simpl; [done|].
  intros [Hc Hw]%andb_prop. rewrite Hc. by apply IH.
Qed.

Lemma rstrip_by_app_r s w : all p w = true → rstrip_by p (s ++ w) = rstrip_by p s.
Proof.
  intros Hw. induction s as [|c s IH]; simpl.
  - by apply rstrip_by_all.
  - by rewrite IH.
Qed.

Lemma lstrip_by_app_r s w :
  lstrip_by p (s ++ w) = if all p s then lstrip_by p w else lstrip_by p s ++ w.
Proof.
  induction s as [|c s IH]; simpl; [done|].
  by destruct (p c).
Qed.

Lemma strip_by_pad w1 s w2 :
  all p w1 = true → all p w2 = true →
  rstrip_by p (lstrip_by p (w1 ++ s ++ w2)) = rstrip_by p (lstrip_by p s).
Proof.
  intros H1 H2. rewrite lstrip_by_app_l by done. rewrite lstrip_by_app_r.
  destruct (all p s) eqn:Hs.
  - by rewrite (lstrip_by_all w2), (lstrip_by_all s).
  - by apply rstrip_by_app_r.
Qed.

(** A string that is empty or starts with a character [lstrip_by] keeps. *)
Definition head_kept (s : string) : bool :=
  match s with
  | "" => true
  | String c _ => negb (p c)
  end.

Lemma lstrip_by_head s : head_kept (lstrip_by p s) = true.
Proof.
  induction s as [|c r IH]; simpl; [done|].
  destruct (p c) eqn:Hc; [done|]. simpl. by rewrite Hc.
Qed.

Lemma lstrip_by_id s : head_kept s = true → lstrip_by p s = s.
Proof. destruct s as [|c r]; simpl; [done|]. by destruct (p c). Qed.

Lemma rstrip_by_head s : head_kept s = true → head_kept (rstrip_by p s) = true.
Proof.
  destruct s as [|c r]; simpl; [done|].
  destruct (rstrip_by p r); simpl; [|done].
  destruct (p c) eqn:Hc; simpl; [done|]. by rewrite Hc.
Qed.

Lemma rstrip_by_idem s : rstrip_by p (rstrip_by p s) = rstrip_by p s.
Proof.
  induction s as [|c r IH]; simpl; [done|].
  destruct (rstrip_by p r) as [|d r'] eqn:Hr.
  - destruct (p c) eqn:Hc; simpl; [done|]. by rewrite Hc.
  - cbn [rstrip_by]. cbn [rstrip_by] in IH. by rewrite IH.
Qed.

End strip.

Lemma strip_idem s : strip (strip s) = strip s.
Proof.
  unfold strip. rewrite (lstrip_by_id isspace).
  - apply rstrip_by_idem.
  - apply rstrip_by_head, lstrip_by_head.
Qed.

Lemma strip_lower_pad w1 n w2 :
  all isspace w1 = true → all isspace w2 = true →
  strip (lower (w1 ++ n ++ w2)) = strip (lower n).
Proof.
  intros H1 H2.
  rewrite !lower_app, (lower_all_isspace w1), (lower_all_isspace w2) by done.
  by apply strip_by_pad.
Qed.

Lemma dietary_str_sorted l : dietary_str (Some l) = join "_" (sorted l).
Proof. by destruct l. Qed.

Lemma dietary_str_agree (r1 r2 : option (list string)) :
  sorted <$> r1 = sorted <$> r2 → dietary_str r1 = dietary_str r2.
Proof.
  destruct r1 as [l1|], r2 as [l2|]; try discriminate; [|done].
  intros [= H]. by rewrite !dietary_str_sorted, H.
Qed.

(** C4: two inputs that agree after lowercasing and trimming the name and
    sorting the restrictions have the same fingerprint; so the fingerprint
    does not change when the restriction list is permuted, when the name
    changes in case only, or when white space is put before or behind the
    name. *)
Theorem fingerprint_normalized :
  (∀ n1 n2 s (r1 r2 : option (list string)),
     strip (lower n1) = strip (lower n2) → sorted <$> r1 = sorted <$> r2 →
     generate_recipe_key n1 s r1 = generate_recipe_key n2 s r2)
  ∧ (∀ n s r1 r2, Permutation r1 r2 →
       generate_recipe_key n s (Some r1) = generate_recipe_key n s (Some r2))
  ∧ (∀ n1 n2 s r, lower n1 = lower n2 →
       generate_recipe_key n1 s r = generate_recipe_key n2 s r)
  ∧ (∀ w1 w2 n s r, all isspace w1 = true → all isspace w2 = true →
       generate_recipe_key (w1 ++ n ++ w2) s r = generate_recipe_key n s r).
Proof.
  assert (Hgen : ∀ n1 n2 s (r1 r2 : option (list string)),
     strip (lower n1) = strip (lower n2) → sorted <$> r1 = sorted <$> r2 →
     generate_recipe_key n1 s r1 = generate_recipe_key n2 s r2).
  { intros n1 n2 s r1 r2 Hn Hr. unfold generate_recipe_key, key_string.
    by rewrite Hn, (dietary_str_agree r1 r2 Hr). }
  split; [exact Hgen|]. split; [|split].
  - intros n s r1 r2 Hp. apply Hgen; [done|]. simpl. f_equal.
    by apply sorted_permutation.
  - intros n1 n2 s r Hl. apply Hgen; [|done]. by rewrite Hl.
  - intros w1 w2 n s r H1 H2. apply Hgen; [|done]. by apply strip_lower_pad.
Qed.

(** The example of the specification. *)
Lemma fingerprint_normalized_witness :
  generate_recipe_key "Pad Thai" 2 (Some ["Vegan"; "Gluten-Free"]) =
  generate_recipe_key " pad thai " 2 (Some ["Gluten-Free"; "Vegan"]).
Proof. apply (proj1 fingerprint_normalized); reflexivity. Defined.

Example fingerprint_value :
  generate_recipe_key "Pad Thai" 2 (Some ["Vegan"; "Gluten-Free"])
  = "dfbd6544ebc04d7581934fc14d319698".
Proof. vm_compute. reflexivity. Qed.

(** C10: the restriction lists [["b_c"]] and [["b"; "c"]] are distinct and
    have the same fingerprint, for every name and every number of servings:
    the joiner of the restrictions is the delimiter of the fields. *)
Theorem fingerprint_joiner_collision (n : string) (s : Z) :
  generate_recipe_key n s (Some ["b_c"]) = generate_recipe_key n s (Some ["b"; "c"])
  ∧ Some ["b_c"] ≠ Some ["b"; "c"].
Proof. split; [reflexivity|discriminate]. Qed.

End KeyGenFacts.

(** ** The standard parser *)

Module JsonFacts.

Import PyStr Json.
Local Open Scope string_scope.

Local Abbreviation len := String.length.

(** *** What a scanner returns is shorter than what it was given *)

Lemma lstrip_by_length p s : (len (lstrip_by p s) ≤ len s)%nat.
Proof.
  induction s as [|c r IH]; simpl; [done|].
  destruct (p c); simpl; lia.
Qed.

Lemma skip_ws_length s : (len (skip_ws s) ≤ len s)%nat.
Proof. apply lstrip_by_length. Qed.

Lemma drop_length n s : (len (drop n s) ≤ len s)%nat.
Proof.
  revert s. induction n as [|n IH]; intros [|c r]; simpl; try lia.
  specialize (IH r). lia.
Qed.

Lemma span_digits_length s d rest :
  span_digits s = (d, rest) → (len rest ≤ len s)%nat.
Proof.
  revert d rest. induction s as [|c r IH]; intros d rest; simpl.
  - intros [= <- <-]. done.
  - destruct (is_digit c).
    + destruct (span_digits r) as [d' rest'] eqn:E. intros [= <- <-].
      specialize (IH _ _ eq_refl). lia.
    + intros [= <- <-]. simpl. lia.
Qed.

Ltac span_lengths :=
  repeat match goal with
         | H : span_digits _ = (_, _) |- _ => apply span_digits_length in H
         end.

Lemma match_number_shorter s parts rest :
  match_number s = Some (parts, rest) → (len rest < len s)%nat.
Proof.
  unfold match_number. intros H.
  repeat case_match; simplify_eq; span_lengths; simpl in *; lia.
Qed.

Lemma scanstring_shorter s l rest :
  scanstring s = Some (l, rest) → (len rest < len s)%nat.
Proof.
  remember (len s) as n eqn:Hn. assert (Hle : (len s ≤ n)%nat) by lia. clear Hn.
  revert s l rest Hle. induction n as [|n IH]; intros s l rest Hle H.
  - destruct s; [done|simpl in Hle; lia].
  - destruct s as [|c r]; [done|]. cbn [scanstring] in H. simpl in Hle.
    repeat case_match; simplify_eq;
      repeat match goal with
             | H : scanstring _ = Some _ |- _ => apply IH in H; [|simpl in *; lia]
             end;
      simpl in *; lia.
Qed.

(** *** The fuel of [loads] is enough *)

Ltac ws_lengths :=
  repeat match goal with
         | H : skip_ws ?r = String _ _ |- _ =>
             let L := fresh "L" in
             pose proof (skip_ws_length r) as L; rewrite H in L; clear H
         | H : scanstring _ = Some (_, _) |- _ => apply scanstring_shorter in H
         | H : match_number _ = Some (_, _) |- _ => apply match_number_shorter in H
         end;
  try match goal with
      | |- context [skip_ws ?r] => pose proof (skip_ws_length r)
      end.

Lemma drop_shorter n c r :
  (len (drop (S n) (String c r)) < len (String c r))%nat.
Proof. simpl. pose proof (drop_length n r). lia. Qed.

Section settled.

Variables once once' : string → scanned.
Variables items items' : string → list json → scanned.
Variables members members' : string → list (list N * json) → scanned.

Lemma scan_value_settled s :
  (∀ s' acc, (len s' < len s)%nat → items' s' acc = items s' acc) →
  (∀ s' acc, (len s' < len s)%nat → members' s' acc = members s' acc) →
  scan_value items' members' s = scan_value items members s.
Proof.
  intros Hi Hm. unfold scan_value.
  repeat case_match; try done; [apply Hm|apply Hi]; ws_lengths;
    cbn [String.length] in *; lia.
Qed.

Lemma scan_value_shorter s v rest :
  (∀ s' acc v rest, (len s' < len s)%nat →
     items s' acc = Value (v, rest) → (len rest < len s')%nat) →
  (∀ s' acc v rest, (len s' < len s)%nat →
     members s' acc = Value (v, rest) → (len rest < len s')%nat) →
  scan_value items members s = Value (v, rest) → (len rest < len s)%nat.
Proof.
  intros Hi Hm. unfold scan_value. intros H.
  repeat case_match; simplify_eq;
    try match goal with
        | H : items _ _ = Value _ |- _ => apply Hi in H
        | H : members _ _ = Value _ |- _ => apply Hm in H
        end;
    try apply drop_shorter;
    ws_lengths; cbn [String.length] in *;
    first [ lia
          | match goal with
            | |- (String.length _ < S (String.length ?r))%nat =>
                apply Nat.lt_succ_r;
                first [exact (drop_length 2 r) | exact (drop_length 3 r)
                      |exact (drop_length 4 r) | exact (drop_length 7 r)
                      |exact (drop_length 8 r)]
            end ].
Qed.

End settled.

Section shorter_loops.

Variable once : string → scanned.
Variable items : string → list json → scanned.
Variable members : string → list (list N * json) → scanned.
Variable s : string.
Hypothesis once_shorter :
  ∀ s' v rest, (len s' ≤ len s)%nat → once s' = Value (v, rest) →
               (len rest < len s')%nat.

Lemma scan_item_shorter acc v rest :
  (∀ s' acc v rest, (len s' < len s)%nat →
     items s' acc = Value (v, rest) → (len rest < len s')%nat) →
  scan_item once items s acc = Value (v, rest) → (len rest < len s)%nat.
Proof.
  intros Hi. unfold scan_item.
  destruct (once s) as [[v' rest']| |e] eqn:Ho; [|done|done].
  apply once_shorter in Ho; [|done]. intros H.
  repeat case_match; simplify_eq; ws_lengths; cbn [String.length] in *;
    [lia|].
  match type of H with
  | items (skip_ws ?r) _ = _ => pose proof (skip_ws_length r)
  end.
  apply Hi in H; lia.
Qed.

Lemma scan_member_shorter acc v rest :
  (∀ s' acc v rest, (len s' < len s)%nat →
     members s' acc = Value (v, rest) → (len rest < len s')%nat) →
  scan_member once members s acc = Value (v, rest) → (len rest < len s)%nat.
Proof.
  intros Hm. unfold scan_member.
  destruct s as [|q r] eqn:Hs; [done|].
  destruct (negb (Ascii.eqb q dquote)); [done|].
  destruct (scanstring r) as [[key rest0]|] eqn:Hk; [|done].
  destruct (skip_ws rest0) as [|colon rest1] eqn:Hc; [done|].
  destruct (negb (Ascii.eqb colon ":")); [done|].
  ws_lengths. pose proof (skip_ws_length rest1).
  cbn [String.length] in *.
  destruct (once (skip_ws rest1)) as [[v' rest2]| |e] eqn:Ho; [|done|done].
  apply once_shorter in Ho; [|lia]. intros Hres.
  repeat case_match; simplify_eq; ws_lengths; cbn [String.length] in *;
    [lia|].
  match type of Hres with
  | members (skip_ws ?r) _ = _ => pose proof (skip_ws_length r)
  end.
  apply Hm in Hres; lia.
Qed.

End shorter_loops.

Section settled_loops.

Variables once once' : string → scanned.
Variables items items' : string → list json → scanned.
Variables members members' : string → list (list N * json) → scanned.
Variable s : string.
Hypothesis once_settled : ∀ s', (len s' ≤ len s)%nat → once' s' = once s'.
Hypothesis once_shorter :
  ∀ s' v rest, (len s' ≤ len s)%nat → once s' = Value (v, rest) →
               (len rest < len s')%nat.

Lemma scan_item_settled acc :
  (∀ s' acc, (len s' < len s)%nat → items' s' acc = items s' acc) →
  scan_item once' items' s acc = scan_item once items s acc.
Proof.
  intros Hi. unfold scan_item. rewrite once_settled by done.
  destruct (once s) as [[v rest]| |e] eqn:Ho; [|done|done].
  apply once_shorter in Ho; [|done].
  repeat case_match; try done. apply Hi. ws_lengths.
  cbn [String.length] in *. lia.
Qed.

Lemma scan_member_settled acc :
  (∀ s' acc, (len s' < len s)%nat → members' s' acc = members s' acc) →
  scan_member once' members' s acc = scan_member once members s acc.
Proof.
  intros Hm. unfold scan_member.
  destruct s as [|q r] eqn:Hs; [done|].
  destruct (negb (Ascii.eqb q dquote)); [done|].
  destruct (scanstring r) as [[key rest]|] eqn:Hk; [|done].
  destruct (skip_ws rest) as [|colon rest1] eqn:Hc; [done|].
  destruct (negb (Ascii.eqb colon ":")); [done|].
  ws_lengths. pose proof (skip_ws_length rest1).
  cbn [String.length] in *.
  rewrite once_settled by lia.
  destruct (once (skip_ws rest1)) as [[v rest2]| |e] eqn:Ho; [|done|done].
  apply once_shorter in Ho; [|lia].
  repeat case_match; try done. apply Hm. ws_lengths.
  cbn [String.length] in *. lia.
Qed.

End settled_loops.

(** With fuel above twice the length of the text, more fuel changes nothing,
    and a scanner that succeeds has consumed a character. *)
Lemma scan_settled n :
  (∀ s, (2 * len s < n)%nat →
     (∀ k, scan_once (n + k) s = scan_once n s)
     ∧ (∀ v rest, scan_once n s = Value (v, rest) → (len rest < len s)%nat))
  ∧ (∀ s acc, (2 * len s + 1 < n)%nat →
       (∀ k, scan_items (n + k) s acc = scan_items n s acc)
       ∧ (∀ v rest, scan_items n s acc = Value (v, rest) → (len rest < len s)%nat))
  ∧ (∀ s acc, (2 * len s + 1 < n)%nat →
       (∀ k, scan_members (n + k) s acc = scan_members n s acc)
       ∧ (∀ v rest, scan_members n s acc = Value (v, rest) → (len rest < len s)%nat)).
Proof.
  induction n as [|n (IHo & IHi & IHm)].
  - repeat split; intros; lia.
  - split; [|split].
    + intros s Hs. split.
      * intros k. cbn [Nat.add scan_once].
        apply scan_value_settled; intros s' acc Hs'; [apply IHi|apply IHm]; lia.
      * intros v rest. cbn [scan_once].
        apply scan_value_shorter; intros s' acc v' rest' Hs';
          [apply IHi|apply IHm]; lia.
    + intros s acc Hs. split.
      * intros k. cbn [Nat.add scan_items]. apply scan_item_settled.
        -- intros s' Hs'. apply IHo. lia.
        -- intros s' v rest Hs'. apply IHo. lia.
        -- intros s' acc' Hs'. apply IHi. lia.
      * intros v rest. cbn [scan_items]. apply scan_item_shorter.
        -- intros s' v' rest' Hs'. apply IHo. lia.
        -- intros s' acc' v' rest' Hs'. apply IHi. lia.
    + intros s acc Hs. split.
      * intros k. cbn [Nat.add scan_members]. apply scan_member_settled.
        -- intros s' Hs'. apply IHo. lia.
        -- intros s' v rest Hs'. apply IHo. lia.
        -- intros s' acc' Hs'. apply IHm. lia.
      * intros v rest. cbn [scan_members]. apply scan_member_shorter.
        -- intros s' v' rest' Hs'. apply IHo. lia.
        -- intros s' acc' v' rest' Hs'. apply IHm. lia.
Qed.

(** The fuel of [loads] is enough: the result is the one for any larger
    amount of fuel. *)
Lemma loads_settled s k : loads_with (2 * len s + 2 + k) s = loads s.
Proof.
  unfold loads, loads_with.
  destruct (scan_settled (2 * len s + 2)) as [Ho _].
  destruct (Ho (skip_ws s)) as [-> _]; [|done].
  pose proof (skip_ws_length s). lia.
Qed.

End JsonFacts.

(** ** ResilientDecoder *)

Module DecoderFacts.

Import PyStr Decoder.
Local Open Scope string_scope.

(** *** The comma step *)

Lemma closes_not_comma c r : closes (String c r) = true → Ascii.eqb c "," = false.
Proof.
  simpl. destruct (Ascii.eqb_spec c ",") as [->|]; [|done]. simpl.
  discriminate.
Qed.

(** The text the group matches at the start of [s], and the text behind it. *)
Fixpoint group (s : string) : string :=
  match s with
  | "" => ""
  | String c r => if is_closer c then String c "" else String c (group r)
  end.

Fixpoint after_group (s : string) : string :=
  match s with
  | "" => ""
  | String c r => if is_closer c then r else after_group r
  end.

(** On a match the comma is replaced by the group and the scan resumes
    behind the group. *)
Lemma remove_trailing_commas_resume r :
  closes r = true →
  r = group r ++ after_group r ∧
  remove_trailing_commas (String "," r) =
    group r ++ remove_trailing_commas (after_group r).
Proof.
  intros Hr. cbn [remove_trailing_commas]. rewrite Hr. simpl. clear -Hr.
  induction r as [|c r IH]; [discriminate|].
  pose proof (closes_not_comma c r Hr) as Hc.
  cbn [remove_trailing_commas group after_group]. rewrite Hc. simpl.
  simpl in Hr. destruct (is_closer c); simpl in *; [done|].
  apply andb_prop in Hr as [_ Hr]. destruct (IH Hr) as [E1 E2].
  split; [exact (f_equal (String c) E1)|exact (f_equal (String c) E2)].
Qed.


Lemma remove_trailing_commas_id s :
  has_trailing_comma s = false → remove_trailing_commas s = s.
Proof.
  induction s as [|c r IH]; simpl; [done|].
  intros [H1 H2]%orb_false_elim. rewrite H1. by rewrite IH.
Qed.

(** *** A text that needs no repair *)

Lemma startswith_longer p q s :
  startswith p s = false → startswith (p ++ q) s = false.
Proof.
  revert s. induction p as [|a p IH]; intros s; [done|].
  destruct s as [|b s]; [done|].
  change (String a p ++ q) with (String a (p ++ q)). cbn [startswith].
  destruct (Ascii.eqb a b); simpl; [apply IH|done].
Qed.

Lemma strip_fences_plain t :
  startswith "```" (strip t) = false → endswith "```" (strip t) = false →
  strip_fences t = strip t.
Proof.
  intros H1 H2. unfold strip_fences.
  assert (H0 : startswith "```json" (strip t) = false)
    by (by apply (startswith_longer "```" "json")).
  rewrite H0, H1, H2. apply KeyGenFacts.strip_idem.
Qed.

Lemma close_truncated_id s :
  (count "{" s <=? count "}" s)%Z = true → (count "[" s <=? count "]" s)%Z = true →
  close_truncated s = s.
Proof.
  intros H1%Z.leb_le H2%Z.leb_le. unfold close_truncated.
  replace (count "[" s - count "]" s >? 0)%Z with false by lia.
  by replace (count "{" s - count "}" s >? 0)%Z with false by lia.
Qed.

Lemma no_repair_id t :
  no_repair (strip t) = true →
  close_truncated (remove_trailing_commas (strip_fences t)) = strip t.
Proof.
  unfold no_repair. intros H.
  repeat (apply andb_prop in H as [H ?]).
  rewrite strip_fences_plain by (by apply negb_true_iff).
  rewrite remove_trailing_commas_id by (by apply negb_true_iff).
  by apply close_truncated_id.
Qed.

(** *** The outcome of the decoder *)

Section decoder.

Variable J E : Type.
Variable json_loads : string → Json.loaded J E.


(** The three ways the decoder ends, by what the parser does on the
    repaired text. *)
Lemma parse_response_cases t :
  match json_loads (close_truncated (remove_trailing_commas (strip_fences t))) with
  | Json.Value v => _parse_response J E json_loads t = Returns v
  | Json.JSONDecodeError =>
      (∃ v, _parse_response J E json_loads t = Returns v)
      ∨ _parse_response J E json_loads t = RaisesService parse_error
  | Json.Raises e => _parse_response J E json_loads t = RaisesOther e
  end.
Proof.
  unfold _parse_response.
  destruct (json_loads _); [done| |done]. destruct (recover _ _ _ _ _); eauto.
Qed.

Lemma parse_response_service t e :
  _parse_response J E json_loads t = RaisesService e → e = parse_error.
Proof.
  pose proof (parse_response_cases t) as H.
  destruct (json_loads _); [congruence| |congruence].
  destruct H as [[v ->]| ->]; [done|]. by intros [= <-].
Qed.

(** C1, as amended: when the parser accepts the stripped text and no repair
    step applies to it (no fence at either end, no comma followed by
    optional white space and a closing bracket or brace, no more opening
    than closing braces and brackets), the decoder returns exactly the value
    the parser returns on the stripped text. *)
Theorem well_formed_text_parsed (response_text : string) (v : J) :
  no_repair (strip response_text) = true →
  json_loads (strip response_text) = Json.Value v →
  _parse_response J E json_loads response_text = Returns v.
Proof.
  intros Hn Hv. unfold _parse_response. by rewrite no_repair_id, Hv.
Qed.

(** C6, as amended: the error raised when every repair attempt is exhausted
    carries a fixed message and the code JSON_PARSE_ERROR, the same for
    every text. *)
Theorem error_is_fixed (response_text : string) (e : GeminiServiceError) :
  _parse_response J E json_loads response_text = RaisesService e →
  message e = "Failed to parse recipe data from AI."
  ∧ error_code e = "JSON_PARSE_ERROR".
Proof. by intros ->%parse_response_service. Qed.

End decoder.


Import Json.



(** C1 as stated fails: a comma before a brace inside a string literal is
    removed, and a bracket inside a string literal counts as unclosed. *)
Lemma well_formed_text_changed :
  loads (qq "{'a':'x,}'}") = Value (JObj [(codes "a", JStr (codes "x,}"))])
  ∧ _parse_response json exn loads (qq "{'a':'x,}'}")
    = Returns (JObj [(codes "a", JStr (codes "x}"))])
  ∧ loads (qq "{'a':'['}") = Value (JObj [(codes "a", JStr (codes "["))])
  ∧ _parse_response json exn loads (qq "{'a':'['}") = Returns (JObj []).
Proof. vm_compute. repeat split. Qed.

Definition spaced_object : string :=
  String newline (qq " {'a': [1, 2], 'b': 'x'} ").

Lemma well_formed_text_parsed_witness :
  _parse_response json exn loads spaced_object
  = Returns (JObj [(codes "a", JArr [JInt 1; JInt 2]); (codes "b", JStr (codes "x"))]).
Proof.
  apply (well_formed_text_parsed json exn loads spaced_object); vm_compute; reflexivity.
Defined.



(** C6 as stated fails: the error raised for the text of the one character
    [@] holds that character neither in its message nor in its code, and it
    is the error raised for another text too. *)
Lemma error_without_text :
  _parse_response json exn loads "@" = RaisesService parse_error
  ∧ _parse_response json exn loads "#" = RaisesService parse_error
  ∧ contains "@" (message parse_error) = false
  ∧ contains "@" (error_code parse_error) = false.
Proof. vm_compute. repeat split. Qed.

Lemma error_is_fixed_witness :
  message parse_error = "Failed to parse recipe data from AI."
  ∧ error_code parse_error = "JSON_PARSE_ERROR".
Proof.
  apply (error_is_fixed json exn loads "@" parse_error). vm_compute. reflexivity.
Defined.

End DecoderFacts.

(** ** More about the cache store *)

Module CacheMore.

Import Cache CacheFacts.
Local Open Scope string_scope.

Section more.

Context {V : Type}.
Implicit Types (c : InMemoryCache V) (m : gmap string (CacheEntry V)).
Implicit Types (order keys : list string) (k key : string).

(** The TTL [set] gives to [CacheEntry]. *)
Definition effective_ttl (ttl : option Z) c : Z :=
  match ttl with Some t => t | None => _default_ttl c end.

(** X1: in every state reached from a fresh cache by get, set, delete, clear
    and size calls, the recency list has no duplicates and names exactly the
    keys that are stored. *)
Theorem reachable_wf (max_size default_ttl : Z) (ops : list (op V)) :
  let c := run (init max_size default_ttl) ops in
  NoDup (_access_order c) ∧ ∀ k, k ∈ _access_order c ↔ is_Some (_cache c !! k).
Proof. apply (wf_run ops), wf_init. Qed.

(** X2: [get] after a [set] that returned, on the same key, returns the
    value that was set, whatever the cache held and whatever its bound, as
    long as the entry has not expired (the TTL in effect is 0, or the clock
    has not passed it). *)
Theorem set_get_round_trip c c1 (now now' : Z) key (v : V) (ttl : option Z) :
  set now key v ttl c = (Stored, c1) →
  effective_ttl ttl c = 0 ∨ now' <= now + timedelta (effective_ttl ttl c) →
  (get now' key c1).1 = Some v.
Proof.
  intros (e & He & Hk)%lookup_set H. rewrite get_result, Hk.
  fold (effective_ttl ttl c) in He.
  rewrite (not_expired_within _ _ _ _ _ He H).
  f_equal. by apply new_entry_value in He as [? _].
Qed.

Lemma expired_after now now' (v : V) ttl e :
  new_entry now v (Some ttl) = Some e →
  ttl ≠ 0 → now + timedelta ttl < now' →
  is_expired now' e = true.
Proof.
  intros (_ & _ & Hx)%new_entry_value Hne Hlt. unfold is_expired. rewrite Hx.
  destruct (Z.eqb_spec ttl 0); [done|]. lia.
Qed.

Lemma get_expired now key c e :
  _cache c !! key = Some e → is_expired now e = true →
  get now key c = (None, drop key c).
Proof. intros Hk He. unfold get. by rewrite Hk, He. Qed.

Lemma not_elem_of_list_remove key order :
  NoDup order → key ∉ list_remove key order.
Proof. intros Hnd Hin. apply elem_of_list_remove in Hin; [|done]. naive_solver. Qed.

Lemma lookup_foldl_drop_in keys c k :
  _cache (foldl (λ acc key, drop key acc) c keys) !! k
  = if bool_decide (k ∈ keys) then None else _cache c !! k.
Proof.
  revert c. induction keys as [|x r IH]; intros c; simpl; [done|].
  rewrite IH. simpl. destruct (decide (k = x)) as [->|Hne].
  - rewrite lookup_delete_eq, (bool_decide_eq_true_2 (x ∈ x :: r)) by set_solver.
    by destruct (bool_decide (x ∈ r)).
  - rewrite lookup_delete_ne by done.
    apply (f_equal (λ b : bool, if b then None else _cache c !! k)).
    apply bool_decide_ext. set_solver.
Qed.

(** [size] leaves exactly the entries that have not expired at the reading
    taken for each. *)
Lemma size_op_purges (now : string → Z) c :
  _cache (size_op now c).2
  = filter (λ kv, is_expired (now kv.1) kv.2 = false) (_cache c).
Proof.
  apply map_eq. intros k. unfold size_op. cbn [snd].
  rewrite lookup_foldl_drop_in, map_lookup_filter.
  destruct (_cache c !! k) as [e|] eqn:Hk; simpl.
  - destruct (is_expired (now k) e) eqn:Hx.
    + rewrite bool_decide_eq_true_2, option_guard_False; [done|by simpl|].
      apply elem_of_expired_keys. eauto.
    + rewrite bool_decide_eq_false_2, option_guard_True; [done|by simpl|].
      rewrite elem_of_expired_keys. intros [e' [He' Hx']]. congruence.
  - by destruct (bool_decide _).
Qed.

(** X3: an entry set with a TTL other than 0, by a [set] that returned, is
    gone once the clock has passed it: [get] returns nothing and removes
    the key from the store and from the recency list, and so does [size]
    when the reading it takes for the entry is past the expiry. *)
Theorem set_get_expired (max_size default_ttl : Z) (ops : list (op V))
    (now now' : Z) (ts : string → Z) key (v : V) (ttl : option Z) c1 :
  let c := run (init max_size default_ttl) ops in
  set now key v ttl c = (Stored, c1) →
  effective_ttl ttl c ≠ 0 →
  now + timedelta (effective_ttl ttl c) < now' →
  now + timedelta (effective_ttl ttl c) < ts key →
  (get now' key c1).1 = None
  ∧ _cache (get now' key c1).2 !! key = None
  ∧ (key ∉ _access_order (get now' key c1).2)
  ∧ _cache (size_op ts c1).2 !! key = None
  ∧ (key ∉ _access_order (size_op ts c1).2).
Proof.
  intros c Hset Hne Hlt Hlt'.
  assert (Hwf : wf c1).
  { replace c1 with (set now key v ttl c).2 by (by rewrite Hset).
    apply wf_set, (wf_run ops), wf_init. }
  apply lookup_set in Hset as (e & He & Hk). fold (effective_ttl ttl c) in He.
  assert (Hx : is_expired now' e = true) by (by eapply expired_after).
  assert (Hx' : is_expired (ts key) e = true) by (by eapply expired_after).
  rewrite (get_expired _ _ _ _ Hk Hx). cbn [fst snd drop _cache _access_order].
  split; [done|]. split; [apply lookup_delete_eq|].
  split; [apply not_elem_of_list_remove, Hwf|].
  pose proof (wf_size_op ts c1 Hwf) as [_ Hdom].
  assert (Hnone : _cache (size_op ts c1).2 !! key = None).
  { rewrite size_op_purges, map_lookup_filter, Hk. simpl.
    rewrite option_guard_False; [done|]. simpl. by rewrite Hx'. }
  split; [done|]. rewrite Hdom, Hnone. by intros [].
Qed.

(** X4: [delete] answers whether the key was stored; afterwards the key is
    neither stored nor in the recency list, every other entry is as before,
    a second [delete] answers [False], and the number of entries has gone
    down by one exactly when the key was stored. *)
Theorem delete_key_removes (max_size default_ttl : Z) (ops : list (op V)) key :
  let c := run (init max_size default_ttl) ops in
  let c' := (delete_key key c).2 in
  ((delete_key key c).1 = true ↔ is_Some (_cache c !! key))
  ∧ _cache c' !! key = None
  ∧ (key ∉ _access_order c')
  ∧ (∀ k, k ≠ key → _cache c' !! k = _cache c !! k)
  ∧ (delete_key key c').1 = false
  ∧ entries c' = entries c - (if (delete_key key c).1 then 1 else 0).
Proof.
  intros c c'. assert (Hwf : wf c) by apply (wf_run ops), wf_init.
  subst c'. unfold delete_key. destruct (_cache c !! key) as [e|] eqn:Hk.
  - cbn [fst snd drop _cache _access_order]. rewrite lookup_delete_eq.
    split; [done|]. split; [done|].
    split; [by apply not_elem_of_list_remove, Hwf|].
    split; [intros k Hne; by rewrite lookup_delete_ne|].
    split; [done|].
    unfold entries, drop. cbn [_cache]. rewrite map_size_delete, Hk. simpl.
    pose proof (map_size_ne_0_lookup_2 _ _ (mk_is_Some _ _ Hk)). lia.
  - cbn [fst snd]. rewrite Hk.
    split; [split; [done|by intros []]|]. split; [done|].
    split; [intros Hin; apply Hwf in Hin; rewrite Hk in Hin; by destruct Hin|].
    split; [done|]. split; [done|]. lia.
Qed.

Lemma list_remove_sublist key order : list_remove key order `sublist_of` order.
Proof.
  induction order as [|x r IH]; simpl; [done|].
  destruct (decide (x = key)); [by apply sublist_cons|by apply sublist_skip].
Qed.

Lemma foldl_drop_sublist keys c :
  _access_order (foldl (λ acc key, drop key acc) c keys)
    `sublist_of` _access_order c.
Proof.
  revert c. induction keys as [|k r IH]; intros c; simpl; [done|].
  etrans; [apply IH|]. apply list_remove_sublist.
Qed.

Lemma is_expired_later now now' (e : CacheEntry V) :
  now <= now' → is_expired now e = true → is_expired now' e = true.
Proof. unfold is_expired. destruct (expires_at e); [lia|done]. Qed.

(** X5: [size] reads the clock once for each entry it tests.  It returns
    the number of entries that have not expired at the reading taken for
    them and leaves exactly those entries, unchanged and in the order the
    recency list had them.  When all readings lie between [lo] and [hi], an
    entry that has not expired at [hi] stays and one that has expired at
    [lo] is removed. *)
Theorem size_counts_live (now : string → Z) c :
  let live := filter (λ kv, is_expired (now kv.1) kv.2 = false) (_cache c) in
  let c' := (size_op now c).2 in
  (size_op now c).1 = Z.of_nat (size live)
  ∧ _cache c' = live
  ∧ (∀ k e, _cache c' !! k = Some e ↔
            _cache c !! k = Some e ∧ is_expired (now k) e = false)
  ∧ _access_order c' `sublist_of` _access_order c
  ∧ (∀ lo hi, (∀ k, lo <= now k <= hi) →
       ∀ k e, _cache c !! k = Some e →
         (is_expired hi e = false → _cache c' !! k = Some e)
         ∧ (is_expired lo e = true → _cache c' !! k = None)).
Proof.
  intros live c'. pose proof (size_op_purges now c) as Hp. fold live c' in Hp.
  assert (Hl : ∀ k e, _cache c' !! k = Some e ↔
                      _cache c !! k = Some e ∧ is_expired (now k) e = false).
  { intros k e. rewrite Hp. subst live. by rewrite map_lookup_filter_Some. }
  split; [|split; [done|split; [done|split]]].
  - unfold size_op in *. cbn [fst snd] in *. subst c'. by rewrite Hp.
  - apply foldl_drop_sublist.
  - intros lo hi Hb k e Hk. destruct (Hb k) as [Hlo Hhi]. split.
    + intros Hx. apply Hl. split; [done|].
      destruct (is_expired (now k) e) eqn:Hn; [|done].
      by rewrite (is_expired_later _ _ _ Hhi Hn) in Hx.
    + intros Hx. destruct (_cache c' !! k) as [e'|] eqn:Hk'; [|done].
      apply Hl in Hk' as [Hk' Hn]. assert (e' = e) as -> by congruence.
      by rewrite (is_expired_later _ _ _ Hlo Hx) in Hn.
Qed.

(** A cache below its bound: the loop of [set] does nothing. *)
Lemma evict_idle max_size m order :
  Z.of_nat (size m) < max_size → evict max_size m order = (m, order).
Proof.
  intros Hlt. destruct order as [|x r]; simpl; [done|].
  by replace (Z.of_nat (size m) >=? max_size) with false by lia.
Qed.

Lemma wf_nonempty c :
  wf c → 0 < entries c → ∃ oldest rest, _access_order c = oldest :: rest.
Proof.
  intros Hwf Hpos. pose proof (wf_parts_size _ _ Hwf) as Hs.
  unfold entries in Hpos. destruct (_access_order c) as [|x r]; [|eauto].
  simpl in Hs. lia.
Qed.

(** What the loop of [set] leaves in a state that satisfies the invariant
    and the bound: everything, or everything but the head of the recency
    list. *)
Lemma evict_cache c :
  wf c → 1 <= _max_size c → entries c <= _max_size c →
  (evict (_max_size c) (_cache c) (_access_order c)).1
  = if (entries c <? _max_size c)%Z then _cache c
    else match _access_order c with
         | oldest :: _ => delete oldest (_cache c)
         | [] => _cache c
         end.
Proof.
  intros Hwf Hpos Hle.
  destruct (Z.ltb_spec (entries c) (_max_size c)) as [Hlt|Hge].
  - by rewrite evict_idle.
  - assert (Hfull : entries c = _max_size c) by lia.
    destruct (wf_nonempty c Hwf) as (oldest & rest & Ho); [lia|].
    rewrite Ho. rewrite evict_full; [done| |done]. by rewrite <- Ho.
Qed.

(** The store [set] leaves: what the loop left, with the new entry when
    [CacheEntry] did not raise. *)
Lemma set_cache c now key v ttl :
  _cache (set now key v ttl c).2
  = match new_entry now v (Some (effective_ttl ttl c)) with
    | Some e => <[key := e]> (evict (_max_size c) (_cache c) (_access_order c)).1
    | None => (evict (_max_size c) (_cache c) (_access_order c)).1
    end.
Proof.
  unfold effective_ttl.
  destruct (new_entry now v _) as [e|] eqn:He.
  - by rewrite (set_stored _ _ _ _ _ _ He).
  - by rewrite (set_raised _ _ _ _ _ He).
Qed.

(** In a state that satisfies the invariant and the bound, [set] keeps
    the entry of every other key, the head of the recency list of a full
    cache apart, whether it returns or raises. *)
Lemma set_keeps_other c now key v ttl k :
  wf c → 1 <= _max_size c → entries c <= _max_size c → k ≠ key →
  entries c < _max_size c ∨ head (_access_order c) ≠ Some k →
  _cache (set now key v ttl c).2 !! k = _cache c !! k.
Proof.
  intros Hwf Hpos Hle Hne Hk. rewrite set_cache.
  assert (Hev : (evict (_max_size c) (_cache c) (_access_order c)).1 !! k
                = _cache c !! k).
  { rewrite evict_cache by done.
    destruct (Z.ltb_spec (entries c) (_max_size c)) as [Hlt|Hge]; [done|].
    destruct Hk as [Hk|Hk]; [lia|].
    destruct (_access_order c) as [|oldest rest]; [done|].
    rewrite lookup_delete_ne; [done|]. simpl in Hk. congruence. }
  destruct (new_entry _ _ _); [|done]. by rewrite lookup_insert_ne.
Qed.

Lemma reachable_bounded (max_size default_ttl : Z) (ops : list (op V)) :
  1 <= max_size →
  let c := run (init max_size default_ttl) ops in
  wf c ∧ _max_size c = max_size ∧ entries c <= max_size.
Proof.
  intros Hpos c. split; [apply (wf_run ops), wf_init|].
  split; [apply max_size_run|].
  apply (entries_run ops (init max_size default_ttl)); simpl; [apply wf_init|done|].
  unfold entries. simpl. rewrite map_size_empty. lia.
Qed.

(** X6: with a bound of one entry or more, [set] keeps the entry of every
    other key when the cache is below its bound, and of every other key but
    the head of the recency list when it is full; this holds whether [set]
    returns or raises. *)
Theorem set_evicts_head_only (max_size default_ttl : Z) (ops : list (op V))
    (now : Z) key (v : V) (ttl : option Z) k :
  1 <= max_size →
  k ≠ key →
  let c := run (init max_size default_ttl) ops in
  entries c < max_size ∨ head (_access_order c) ≠ Some k →
  _cache (set now key v ttl c).2 !! k = _cache c !! k.
Proof.
  intros Hpos Hne c Hk.
  destruct (reachable_bounded max_size default_ttl ops Hpos) as (Hwf & Hms & Hle).
  fold c in Hwf, Hms, Hle.
  apply set_keeps_other; rewrite ?Hms; done.
Qed.

Lemma head_touch key order k :
  NoDup order → head (touch key order) = Some k → k ≠ key ∨ touch key order = [key].
Proof.
  intros Hnd. unfold touch.
  destruct (list_remove key order) as [|x r] eqn:E; simpl.
  - intros _. by right.
  - intros [= ->]. left. intros ->.
    apply (not_elem_of_list_remove key order Hnd). rewrite E. set_solver.
Qed.

(** X7: with a bound of two entries or more, the key last touched by [set],
    or by a [get] that found it, keeps its entry through the next [set] of
    another key; the entry a [set] that raised has left for the key is kept
    as well. *)
Theorem recent_key_survives (max_size default_ttl : Z) (ops : list (op V))
    (now now' : Z) key key' (v v' : V) (ttl ttl' : option Z) :
  2 <= max_size →
  key' ≠ key →
  let c := run (init max_size default_ttl) ops in
  (_cache (set now' key' v' ttl' (set now key v ttl c).2).2 !! key
   = _cache (set now key v ttl c).2 !! key)
  ∧ (∀ x, (get now key c).1 = Some x →
       _cache (set now' key' v' ttl' (get now key c).2).2 !! key = _cache c !! key).
Proof.
  intros Hpos Hne c.
  assert (Hwf : wf c) by apply (wf_run ops), wf_init.
  split.
  - set (c1 := (set now key v ttl c).2).
    assert (E : c1 = run (init max_size default_ttl) (ops ++ [OpSet now key v ttl])).
    { unfold run. by rewrite foldl_app. }
    destruct (reachable_bounded max_size default_ttl
                (ops ++ [OpSet now key v ttl])) as (Hwf1 & Hms1 & Hle1); [lia|].
    rewrite <- E in Hwf1, Hms1, Hle1.
    apply set_keeps_other; rewrite ?Hms1; [done|lia|done|done|].
    assert (Hms : _max_size c = max_size) by apply max_size_run.
    pose proof (wf_parts_evict (_max_size c) _ _ Hwf) as [Hnd _].
    assert (Hlt : Z.of_nat (size (evict (_max_size c) (_cache c) (_access_order c)).1)
                  < _max_size c) by (apply evict_below; [lia|done]).
    destruct (new_entry now v
                (Some (match ttl with Some t => t | None => _default_ttl c end)))
      as [e|] eqn:He.
    + assert (Ho : _access_order c1
                   = touch key (evict (_max_size c) (_cache c) (_access_order c)).2).
      { subst c1. by rewrite (set_stored _ _ _ _ _ _ He). }
      destruct (head (_access_order c1)) as [h|] eqn:Hh; [|by right].
      rewrite Ho in Hh. apply head_touch in Hh as [Hh|Hh]; [| |done].
      * right. congruence.
      * left. pose proof (wf_parts_size _ _ Hwf1) as Hs. rewrite Ho, Hh in Hs.
        unfold entries. simpl in Hs. lia.
    + left. subst c1. rewrite (set_raised _ _ _ _ _ He). unfold entries.
      cbn [snd _cache]. lia.
  - intros x Hx. rewrite get_result in Hx.
    destruct (_cache c !! key) as [e|] eqn:Hk; [|done].
    destruct (is_expired now e) eqn:He; [done|].
    rewrite (get_live now key c e Hk He). cbn [snd].
    set (c1 := {| _cache := _cache c; _max_size := _max_size c;
                  _default_ttl := _default_ttl c;
                  _access_order := touch key (_access_order c) |}).
    assert (E : c1 = run (init max_size default_ttl) (ops ++ [OpGet now key])).
    { unfold run. rewrite foldl_app. simpl. fold (run (init max_size default_ttl) ops).
      fold c. by rewrite (get_live now key c e Hk He). }
    transitivity (_cache c1 !! key); [|exact Hk].
    destruct (reachable_bounded max_size default_ttl
                (ops ++ [OpGet now key])) as (Hwf1 & Hms1 & Hle1); [lia|].
    rewrite <- E in Hwf1, Hms1, Hle1.
    apply set_keeps_other; rewrite ?Hms1; [done|lia|done|done|].
    destruct (head (_access_order c1)) as [h|] eqn:Hh; [|by right].
    simpl in Hh. apply head_touch in Hh as [Hh|Hh]; [| |apply Hwf].
    + right. congruence.
    + left. pose proof (wf_parts_size _ _ Hwf1) as Hs. simpl in Hs.
      rewrite Hh in Hs. unfold entries. simpl in *. lia.
Qed.

(** X8: after [clear], [size] returns 0, every [get] returns nothing, and
    the cache behaves as a fresh one with the same bound and default TTL. *)
Theorem clear_empties (now : Z) (ts : string → Z) c key (ops : list (op V)) :
  size_op ts (clear c) = (0, clear c)
  ∧ (get now key (clear c)).1 = None
  ∧ run (clear c) ops = run (init (_max_size c) (_default_ttl c)) ops.
Proof.
  split; [|split]; [|done|done].
  unfold size_op, expired_keys, clear. cbn [_cache].
  rewrite map_filter_empty, map_to_list_empty. simpl. by rewrite map_size_empty.
Qed.

End more.
End CacheMore.

(** ** More about the decoder *)

Module DecoderMore.

Import PyStr Decoder KeyGenFacts DecoderFacts.
Local Open Scope string_scope.

(** *** Counting *)

Lemma append_cons c a b : String c a ++ b = String c (a ++ b).
Proof. done. Qed.

Lemma append_nil_l b : "" ++ b = b.
Proof. done. Qed.

Lemma count_app c a b : count c (a ++ b) = (count c a + count c b)%Z.
Proof.
  induction a as [|d a IH]; [done|].
  rewrite append_cons. cbn [count]. rewrite IH. lia.
Qed.

Lemma count_times c d n :
  count c (times d n) = if Ascii.eqb d c then Z.max 0 n else 0%Z.
Proof.
  unfold times. destruct (Z.le_gt_cases n 0) as [Hn|Hn].
  - replace (Z.to_nat n) with O by lia. simpl. destruct (Ascii.eqb d c); lia.
  - rewrite <- (Z2Nat.id n) at 2 by lia. generalize (Z.to_nat n) as k. clear.
    induction k as [|k IH]; [by destruct (Ascii.eqb d c)|].
    cbn [repeat string_of_list_ascii count]. rewrite IH.
    destruct (Ascii.eqb d c); lia.
Qed.

Lemma count_rstrip_by p c s :
  p c = false → count c (rstrip_by p s) = count c s.
Proof.
  intros Hc. induction s as [|d r IH]; [done|]. cbn [rstrip_by count].
  destruct (rstrip_by p r) as [|x r'] eqn:Hr.
  - rewrite <- IH. cbn [count]. destruct (p d) eqn:Hd.
    + destruct (Ascii.eqb_spec d c) as [->|]; [congruence|done].
    + done.
  - cbn [count]. cbn [count] in IH. by rewrite IH.
Qed.

(** The surplus of the opening character [o] over the closing one [cl]. *)
Definition surplus (o cl : ascii) (s : string) : Z := (count o s - count cl s)%Z.

(** X13: the structural close, in the repair of a truncated text and in the
    last-resort loop, leaves no surplus of opening brackets or braces: the
    surplus of each kind afterwards is the smaller of 0 and the surplus
    before. *)
Theorem structural_close_balances (s : string) :
  (surplus "[" "]" (close_truncated s) = Z.min 0 (surplus "[" "]" s)
   ∧ surplus "{" "}" (close_truncated s) = Z.min 0 (surplus "{" "}" s))
  ∧ (surplus "[" "]" (close_partial s) = Z.min 0 (surplus "[" "]" s)
     ∧ surplus "{" "}" (close_partial s) = Z.min 0 (surplus "{" "}" s)).
Proof.
  assert (Hq : ∀ c t, Ascii.eqb dquote c = false →
     count c (if endswith (String dquote "") (rstrip t) then rstrip t
              else rstrip t ++ String dquote "") = count c (rstrip t)).
  { intros c t Hc. destruct (endswith _ _); [done|].
    rewrite count_app. cbn [count]. rewrite Hc. lia. }
  unfold surplus. split.
  - unfold close_truncated.
    set (ob := (count "[" s - count "]" s)%Z). set (oc := (count "{" s - count "}" s)%Z).
    destruct ((ob >? 0)%Z || (oc >? 0)%Z) eqn:Hrep.
    + assert (Hbase : ∀ c, isspace c = false → noise c = false →
                Ascii.eqb dquote c = false →
        count c (rstrip_by noise
          (if (count dquote (remove_pair "\" dquote s) mod 2 =? 1)%Z
           then if endswith (String dquote "") (rstrip s) then rstrip s
                else rstrip s ++ String dquote ""
           else s)) = count c s).
      { intros c H1 H2 H3. rewrite count_rstrip_by by done.
        destruct (_ =? 1)%Z; [|done]. rewrite Hq by done.
        by apply count_rstrip_by. }
      rewrite !count_app, !count_times, !Hbase by done. simpl. lia.
    + apply orb_false_elim in Hrep as [H1 H2]. lia.
  - unfold close_partial.
    rewrite !count_app, !count_times. simpl.
    rewrite !(count_rstrip_by noise) by done. lia.
Qed.

(** X15: the trailing-comma step changes nothing but commas: every other
    character occurs as often as before, and the text does not get longer. *)
Theorem trailing_commas_only_commas (s : string) (c : ascii) :
  c ≠ ","%char →
  count c (remove_trailing_commas s) = count c s
  ∧ (String.length (remove_trailing_commas s) ≤ String.length s)%nat.
Proof.
  intros Hc. induction s as [|d r [IH1 IH2]]; [done|].
  cbn [remove_trailing_commas].
  destruct (Ascii.eqb_spec d ",") as [->|Hd]; cbn [andb].
  - assert (E : Ascii.eqb "," c = false) by (by apply Ascii.eqb_neq).
    destruct (closes r); cbn [count String.length]; rewrite E, IH1; split; lia.
  - cbn [count String.length]. rewrite IH1. split; lia.
Qed.

(** A text of white space only is empty when its repair is done. *)
Lemma repaired_blank w :
  all isspace w = true →
  close_truncated (remove_trailing_commas (strip_fences w)) = "".
Proof.
  intros Hw. unfold strip_fences.
  assert (E : strip w = "").
  { unfold strip. by rewrite (lstrip_by_all isspace w Hw). }
  by rewrite E.
Qed.

Section decoder.

Variable J E : Type.
Variable json_loads : string → Json.loaded J E.

(** X14: the last-resort loop returns the value of the longest prefix whose
    closed form parses: it returns [v] exactly when some prefix length [i]
    gives [v] and the parser raises on every longer one, whatever it
    raises. *)
Theorem recover_longest (text : string) (n : nat) (v : J) :
  recover J E json_loads text n = Some v ↔
  ∃ i, (1 ≤ i ≤ n)%nat
       ∧ json_loads (close_partial (take i text)) = Json.Value v
       ∧ ∀ j, (i < j ≤ n)%nat →
              Json.value_of (json_loads (close_partial (take j text))) = None.
Proof.
  induction n as [|n IH]; cbn [recover].
  - split; [done|]. intros (i & Hi & _). lia.
  - destruct (json_loads (close_partial (take (S n) text))) as [w| |e] eqn:Hw.
    + split.
      * intros [= <-]. exists (S n). split; [lia|]. split; [done|]. intros j Hj. lia.
      * intros (i & Hi & Hv & Hnone). destruct (decide (i = S n)) as [->|Hne].
        -- congruence.
        -- specialize (Hnone (S n)). rewrite Hw in Hnone. discriminate Hnone. lia.
    + rewrite IH. split.
      * intros (i & Hi & Hv & Hnone). exists i. split; [lia|]. split; [done|].
        intros j Hj. destruct (decide (j = S n)) as [->|]; [by rewrite Hw|].
        apply Hnone. lia.
      * intros (i & Hi & Hv & Hnone). exists i.
        assert (i ≠ S n) by (intros ->; congruence).
        split; [lia|]. split; [done|]. intros j Hj. apply Hnone. lia.
    + rewrite IH. split.
      * intros (i & Hi & Hv & Hnone). exists i. split; [lia|]. split; [done|].
        intros j Hj. destruct (decide (j = S n)) as [->|]; [by rewrite Hw|].
        apply Hnone. lia.
      * intros (i & Hi & Hv & Hnone). exists i.
        assert (i ≠ S n) by (intros ->; congruence).
        split; [lia|]. split; [done|]. intros j Hj. apply Hnone. lia.
Qed.

(** X10: white space before and behind the response does not change what
    the decoder returns or raises. *)
Theorem surrounding_space_ignored (w1 text w2 : string) :
  all isspace w1 = true → all isspace w2 = true →
  _parse_response J E json_loads (w1 ++ text ++ w2)
  = _parse_response J E json_loads text.
Proof.
  intros H1 H2. unfold _parse_response, strip_fences.
  replace (strip (w1 ++ text ++ w2)) with (strip text); [done|].
  symmetry. by apply strip_by_pad.
Qed.

(** X12: a response of white space only fails with the decode error, for
    every parser that rejects the empty text with [json.JSONDecodeError]. *)
Theorem blank_response_fails (w : string) :
  json_loads "" = Json.JSONDecodeError → all isspace w = true →
  _parse_response J E json_loads w = RaisesService parse_error.
Proof.
  intros Hl Hw. unfold _parse_response. rewrite (repaired_blank w Hw).
  by rewrite Hl.
Qed.

End decoder.

End DecoderMore.

Module FenceFacts.

Import PyStr Decoder KeyGenFacts DecoderFacts DecoderMore.
Local Open Scope string_scope.

Lemma append_assoc a b c : (a ++ b) ++ c = a ++ b ++ c.
Proof.
  induction a as [|x a IH]; [done|]. rewrite !append_cons. by rewrite IH.
Qed.

Lemma length_append a b :
  String.length (a ++ b) = (String.length a + String.length b)%nat.
Proof. induction a as [|x a IH]; [done|]. rewrite append_cons. simpl. by rewrite IH. Qed.

Lemma drop_append a b : drop (String.length a) (a ++ b) = b.
Proof. induction a as [|x a IH]; [by destruct b|]. by rewrite append_cons. Qed.

Lemma take_append a b : take (String.length a) (a ++ b) = a.
Proof.
  induction a as [|x a IH]; [by destruct b|]. rewrite append_cons. simpl. by rewrite IH.
Qed.

Lemma endswith_append a p : endswith p (a ++ p) = true.
Proof.
  unfold endswith. rewrite length_append.
  replace (String.length a + String.length p - String.length p)%nat
    with (String.length a) by lia.
  rewrite drop_append, String.eqb_refl, andb_true_r. apply Nat.leb_le. lia.
Qed.

Lemma drop_last_append a p : drop_last (String.length p) (a ++ p) = a.
Proof.
  unfold drop_last. rewrite length_append.
  replace (String.length a + String.length p - String.length p)%nat
    with (String.length a) by lia.
  apply take_append.
Qed.

Lemma rstrip_by_append_keep p a b :
  rstrip_by p b ≠ "" → rstrip_by p (a ++ b) = a ++ rstrip_by p b.
Proof.
  intros Hb. induction a as [|x a IH]; [done|].
  rewrite !append_cons. cbn [rstrip_by]. rewrite IH.
  destruct (a ++ rstrip_by p b) eqn:E; [|done].
  destruct a; [|done]. by rewrite append_nil_l in E.
Qed.

(** A text between fences is its own [strip]. *)
Lemma strip_fenced x : strip ("```" ++ x ++ "```") = "```" ++ x ++ "```".
Proof.
  unfold strip. rewrite (lstrip_by_id isspace) by done.
  rewrite <- append_assoc. rewrite rstrip_by_append_keep by done.
  done.
Qed.

Lemma strip_fences_fenced lang w1 inner w2 :
  lang = "json"
  ∨ (lang = "" ∧ startswith "json" (w1 ++ inner ++ w2 ++ "```") = false) →
  all isspace w1 = true → all isspace w2 = true →
  strip_fences ("```" ++ lang ++ w1 ++ inner ++ w2 ++ "```") = strip inner.
Proof.
  intros Hlang H1 H2. unfold strip_fences.
  replace (lang ++ w1 ++ inner ++ w2 ++ "```")
    with ((lang ++ w1 ++ inner ++ w2) ++ "```") by (by rewrite !append_assoc).
  rewrite strip_fenced.
  assert (E : (if startswith "```json" ("```" ++ (lang ++ w1 ++ inner ++ w2) ++ "```")
               then drop 7 ("```" ++ (lang ++ w1 ++ inner ++ w2) ++ "```")
               else if startswith "```" ("```" ++ (lang ++ w1 ++ inner ++ w2) ++ "```")
                    then drop 3 ("```" ++ (lang ++ w1 ++ inner ++ w2) ++ "```")
                    else "```" ++ (lang ++ w1 ++ inner ++ w2) ++ "```")
              = (w1 ++ inner ++ w2) ++ "```").
  { destruct Hlang as [->|[-> Hj]].
    - done.
    - rewrite !append_nil_l.
      change (startswith "```json" ("```" ++ (w1 ++ inner ++ w2) ++ "```"))
        with (startswith "json" ((w1 ++ inner ++ w2) ++ "```")).
      rewrite !append_assoc. rewrite Hj. by rewrite <- !append_assoc. }
  rewrite E. rewrite endswith_append.
  rewrite (drop_last_append _ "```"). by apply strip_by_pad.
Qed.

Section decoder.

Variable J E : Type.
Variable json_loads : string → Json.loaded J E.

(** X11: a text between a fence with the tag [json], or a bare fence not
    followed by the letters [json], and a closing fence, with white space
    inside the fences, decodes as the text itself, when the text has no
    fence of its own. *)
Theorem fenced_text_decoded (lang w1 inner w2 : string) :
  lang = "json"
  ∨ (lang = "" ∧ startswith "json" (w1 ++ inner ++ w2 ++ "```") = false) →
  all isspace w1 = true → all isspace w2 = true →
  startswith "```" (strip inner) = false →
  endswith "```" (strip inner) = false →
  _parse_response J E json_loads ("```" ++ lang ++ w1 ++ inner ++ w2 ++ "```")
  = _parse_response J E json_loads inner.
Proof.
  intros Hlang H1 H2 H3 H4. unfold _parse_response.
  by rewrite strip_fences_fenced, strip_fences_plain.
Qed.

End decoder.

End FenceFacts.

(** ** CacheService, GeminiService, the route and CORS *)

Module ServiceFacts.

Import PyStr KeyGen KeyGenFacts Cache CacheFacts CacheMore.
Local Open Scope string_scope.

Lemma key_agree n1 n2 s (r1 r2 : option (list string)) :
  strip (lower n1) = strip (lower n2) → sorted <$> r1 = sorted <$> r2 →
  generate_recipe_key n1 s r1 = generate_recipe_key n2 s r2.
Proof.
  intros Hn Hr. unfold generate_recipe_key, key_string.
  by rewrite Hn, (dietary_str_agree r1 r2 Hr).
Qed.

(** X9: a recipe stored by a [set_recipe] that returned is returned by
    [get_recipe] for any name and restriction list that agree with the
    stored ones after normalisation, as long as the entry has not expired. *)
Theorem recipe_round_trip {V : Type} (c c1 : InMemoryCache V) (now now' : Z)
    (n1 n2 : string) (s : Z) (r1 r2 : option (list string)) (data : V)
    (ttl : option Z) :
  strip (lower n1) = strip (lower n2) →
  sorted <$> r1 = sorted <$> r2 →
  Service.set_recipe now n1 s data r1 ttl c = (Stored, c1) →
  effective_ttl ttl c = 0 ∨ now' <= now + timedelta (effective_ttl ttl c) →
  (Service.get_recipe now' n2 s r2 c1).1 = Some data.
Proof.
  intros Hn Hr Hset Ht. unfold Service.get_recipe, Service.set_recipe in *.
  rewrite <- (key_agree n1 n2 s r1 r2 Hn Hr).
  apply lookup_set in Hset as (e & He & Hk). fold (effective_ttl ttl c) in He.
  rewrite get_result, Hk, (not_expired_within _ _ _ _ _ He Ht).
  f_equal. by apply new_entry_value in He as [? _].
Qed.

End ServiceFacts.

Module GeminiFacts.

Import PyStr Decoder DecoderFacts DecoderMore Gemini.
Local Open Scope string_scope.

Definition gemini_codes : list string :=
  ["NOT_CONFIGURED"; "EMPTY_RESPONSE"; "JSON_PARSE_ERROR"; "API_ERROR"].

Section service.

Variable J E : Type.
Variable json_loads : string → Json.loaded J E.
Variable str_exn : E → string.

(** The text the decoder gives to the parser. *)
Definition repaired (text : string) : string :=
  close_truncated (remove_trailing_commas (strip_fences text)).

(** X16: every error [generate_recipe] raises has one of four codes:
    NOT_CONFIGURED exactly when the service is not configured;
    EMPTY_RESPONSE exactly when the text of the response is [None] or
    empty; API_ERROR exactly when the call of the model raised or the
    parser raised, on the repaired text, an exception that is no
    [json.JSONDecodeError]; JSON_PARSE_ERROR exactly when the parser raised
    [json.JSONDecodeError] on the repaired text. *)
Theorem generate_recipe_errors (generate_content : string → option string + string)
    (configured : bool) (request : RecipeRequest) (e : GeminiServiceError) :
  generate_recipe J E json_loads str_exn generate_content configured request
  = inr e →
  let answer := generate_content (_build_prompt request) in
  error_code e ∈ gemini_codes
  ∧ (error_code e = "NOT_CONFIGURED" ↔ configured = false)
  ∧ (error_code e = "EMPTY_RESPONSE" ↔
       configured = true ∧ (answer = inl None ∨ answer = inl (Some "")))
  ∧ (error_code e = "API_ERROR" ↔
       configured = true
       ∧ ((∃ msg, answer = inr msg)
          ∨ (∃ text x, answer = inl (Some text) ∧ text ≠ ""
                       ∧ json_loads (repaired text) = Json.Raises x)))
  ∧ (error_code e = "JSON_PARSE_ERROR" ↔
       configured = true
       ∧ ∃ text, answer = inl (Some text) ∧ text ≠ ""
                 ∧ json_loads (repaired text) = Json.JSONDecodeError).
Proof.
  intros He. cbv zeta. revert He. unfold generate_recipe, gemini_codes.
  destruct configured; simpl.
  - destruct (generate_content (_build_prompt request)) as [[text|]|msg] eqn:Hg.
    + destruct text as [|a text].
      * intros [= <-]. simpl. split; [set_solver|]. repeat split; try done; eauto.
        all: try (intros [_ [[? [=]]|(? & ? & [= <-] & ? & _)]]; done).
        all: try (intros [_ (? & [= <-] & ? & _)]; done).
      * pose proof (parse_response_cases J E json_loads (String a text)) as Hc.
        fold (repaired (String a text)) in Hc.
        destruct (json_loads (repaired (String a text))) as [v| |x] eqn:Hl.
        -- by rewrite Hc.
        -- destruct Hc as [[v ->]| ->]; [done|]. intros [= <-]. simpl.
           split; [set_solver|]. repeat split; try done.
           ++ intros [_ [[=]|[=]]].
           ++ intros [_ [[? [=]]|(? & ? & [= <-] & _ & Hx)]]. congruence.
           ++ exists (String a text). by rewrite Hl.
        -- rewrite Hc. intros [= <-]. simpl.
           split; [set_solver|]. repeat split; try done.
           ++ intros [_ [[=]|[=]]].
           ++ right. exists (String a text), x. by rewrite Hl.
           ++ intros [_ (? & [= <-] & _ & Hx)]. congruence.
    + intros [= <-]. simpl. split; [set_solver|]. repeat split; try done; eauto.
      * intros [_ [[? [=]]|(? & ? & [=] & _)]].
      * intros [_ (? & [=] & _)].
    + intros [= <-]. simpl. split; [set_solver|]. repeat split; try done; eauto.
      * intros [_ [[=]|[=]]].
      * intros [_ (? & [=] & _)].
  - intros [= <-]. simpl. split; [set_solver|]. repeat split; try done.
    all: intros [? _]; done.
Qed.

(** The codes of the errors of a configured service. *)
Lemma configured_codes (generate_content : string → option string + string)
    (request : RecipeRequest) (e : GeminiServiceError) :
  generate_recipe J E json_loads str_exn generate_content true request = inr e →
  error_code e ∈ ["EMPTY_RESPONSE"; "JSON_PARSE_ERROR"; "API_ERROR"].
Proof.
  unfold generate_recipe. simpl.
  destruct (generate_content (_build_prompt request)) as [[text|]|msg].
  - destruct text as [|a text]; [intros [= <-]; set_solver|].
    destruct (_parse_response J E json_loads (String a text)) as [v|e0|x] eqn:Hp;
      [done| |intros [= <-]; set_solver].
    apply parse_response_service in Hp as ->. intros [= <-]. set_solver.
  - intros [= <-]. set_solver.
  - intros [= <-]. set_solver.
Qed.

(** X17: a response of white space only, not empty, is not reported as
    EMPTY_RESPONSE: [generate_recipe] raises JSON_PARSE_ERROR, for every
    parser that rejects the empty text with [json.JSONDecodeError]. *)
Theorem blank_text_is_parse_error
    (generate_content : string → option string + string)
    (request : RecipeRequest) (w : string) :
  json_loads "" = Json.JSONDecodeError →
  generate_content (_build_prompt request) = inl (Some w) →
  w ≠ "" → all isspace w = true →
  generate_recipe J E json_loads str_exn generate_content true request
  = inr parse_error.
Proof.
  intros Hl Hg Hne Hw. unfold generate_recipe. simpl. rewrite Hg.
  destruct w as [|a w]; [done|].
  unfold _parse_response. rewrite (repaired_blank _ Hw). by rewrite Hl.
Qed.

End service.

End GeminiFacts.

Module SecurityFacts.

Import Security.
Local Open Scope string_scope.

(** X21: [configure_cors] always allows the wildcard origin and never
    credentials: origins without the wildcard are replaced by it, origins
    with it are passed on. *)
Theorem cors_always_wildcard (origins methods headers : list string) :
  let m := configure_cors origins methods headers in
  "*" ∈ allow_origins m
  ∧ allow_credentials m = false
  ∧ ("*" ∉ origins → allow_origins m = ["*"])
  ∧ ("*" ∈ origins → allow_origins m = origins).
Proof.
  unfold configure_cors. simpl.
  destruct (decide ("*" ∈ origins)) as [Hin|Hnin].
  - rewrite bool_decide_eq_true_2 by done. repeat split; done.
  - rewrite bool_decide_eq_false_2 by done. repeat split; try done. set_solver.
Qed.

End SecurityFacts.

Module ApiFacts.

Import PyStr KeyGen Cache CacheFacts CacheMore Decoder DecoderFacts Gemini GeminiFacts Api.
Local Open Scope string_scope.

Section cache.

Context {V : Type}.
Implicit Types (c : InMemoryCache V) (m : gmap string (CacheEntry V)).

Lemma evict_lookup_sub max_size m order k e :
  (evict max_size m order).1 !! k = Some e → m !! k = Some e.
Proof.
  revert m. induction order as [|x r IH]; intros m; simpl; [done|].
  destruct (Z.of_nat (size m) >=? max_size); [|done].
  intros H. apply IH in H. apply lookup_delete_Some in H. tauto.
Qed.

Lemma get_lookup_sub now key c k e :
  _cache (get now key c).2 !! k = Some e → _cache c !! k = Some e.
Proof.
  unfold get. destruct (_cache c !! key) as [e'|]; [|done].
  destruct (is_expired now e'); [|done]. simpl.
  intros H. apply lookup_delete_Some in H. tauto.
Qed.

Lemma set_lookup_sub now key v ttl c k e :
  _cache (set now key v ttl c).2 !! k = Some e →
  (k = key ∧ (set now key v ttl c).1 = Stored
   ∧ new_entry now v (Some (effective_ttl ttl c)) = Some e)
  ∨ _cache c !! k = Some e.
Proof.
  unfold effective_ttl.
  pose proof (evict_lookup_sub (_max_size c) (_cache c) (_access_order c) k e) as Hsub.
  destruct (new_entry now v
              (Some (match ttl with Some t => t | None => _default_ttl c end)))
    as [e1|] eqn:He.
  - rewrite (set_stored _ _ _ _ _ _ He). cbn [fst snd _cache].
    destruct (decide (k = key)) as [->|Hne].
    + rewrite lookup_insert_eq. intros [= <-]. by left.
    + rewrite lookup_insert_ne by done. intros H. right. auto.
  - rewrite (set_raised _ _ _ _ _ He). cbn [fst snd _cache]. intros H. right. auto.
Qed.

End cache.

Section route.

Variable J E : Type.
Variable json_loads : string → Json.loaded J E.
Variable str_exn : E → string.
Variable R : Type.
Variable validate : J → R + string.
Variable truthy : J → bool.
Variable cache_ttl_seconds : Z.
Variable str_overflow : string.

Local Abbreviation route gc :=
  (get_recipe J E json_loads str_exn gc R validate truthy cache_ttl_seconds
              str_overflow).
Local Abbreviation fingerprint q :=
  (generate_recipe_key (dish_name q) (servings q) (dietary_restrictions q)).

(** The error of the route when the service is not configured. *)
Definition not_configured_error : APIError :=
  ServiceUnavailableError
    "Gemini API key not configured. Please set GEMINI_API_KEY environment variable."
    (Some [("error_code", "GEMINI_NOT_CONFIGURED")]).

(** X20: an [APIError] of the recipe route is the 503 error for a service
    that is not configured, which leaves the cache as it was, or else a 500
    error with the code INTERNAL_ERROR whose details hold the code of the
    service error (EMPTY_RESPONSE, JSON_PARSE_ERROR or API_ERROR) or the
    text of the exception that the validation or the cache write raised. *)
Theorem route_errors (generate_content : string → option string + string)
    (configured : bool) (now_get now_set : Z) (q : RecipeRequest)
    (c c' : InMemoryCache J) (e : APIError) :
  route generate_content configured now_get now_set q c = (Raised e, c') →
  (configured = false ∧ e = not_configured_error ∧ c' = c)
  ∨ (configured = true ∧ status_code e = 500
     ∧ api_error_code e = "INTERNAL_ERROR"
     ∧ ((∃ code, code ∈ ["EMPTY_RESPONSE"; "JSON_PARSE_ERROR"; "API_ERROR"]
                 ∧ details e = Some [("error_code", code)])
        ∨ (∃ text, api_message e = "Failed to generate recipe"
                   ∧ details e = Some [("original_error", text)]
                   ∧ ((∃ data, validate data = inr text) ∨ text = str_overflow)))).
Proof.
  unfold get_recipe. destruct configured; simpl; [|by intros [= <- <-]; left].
  intros H. right. split; [done|]. revert H.
  destruct (Service.get_recipe _ _ _ _ _) as [cached c1].
  assert (Hdead : ∀ T (a b : T) e0,
            generate_recipe J E json_loads str_exn generate_content true q = inr e0 →
            (if String.eqb (error_code e0) "NOT_CONFIGURED" then a else b) = b).
  { intros T a b e0 Hc%configured_codes.
    destruct (String.eqb_spec (error_code e0) "NOT_CONFIGURED") as [Heq|]; [|done].
    rewrite Heq in Hc. set_solver. }
  destruct cached as [data|];
    [destruct (truthy data); [by destruct (validate data)|]|].
  all: destruct (generate_recipe J E json_loads str_exn generate_content true q)
         as [data'|e0] eqn:Hg;
       [ destruct (validate data') as [r|text] eqn:Hv;
         [ destruct (Service.set_recipe _ _ _ _ _ _ _) as [[|] c2]; [done|];
           intros [= <- <-]; simpl; repeat split; right; exists str_overflow; eauto
         | intros [= <- <-]; simpl; repeat split; right; exists text; eauto ]
       | rewrite (Hdead _ _ _ _ eq_refl); intros [= <- <-]; simpl; repeat split; left;
         exists (error_code e0); split; [by eapply configured_codes|done] ].
Qed.

(** X19: the recipe route writes to the cache nothing but a validated
    recipe: every entry stored after a call was stored before it, or it is
    the entry written by this call under the fingerprint of the request,
    with the TTL of the settings, and its value validates to the response
    that was returned. *)
Theorem route_writes_validated_only
    (generate_content : string → option string + string)
    (configured : bool) (now_get now_set : Z) (q : RecipeRequest)
    (c c' : InMemoryCache J) (out : outcome R) (k : string) (e : CacheEntry J) :
  route generate_content configured now_get now_set q c = (out, c') →
  _cache c' !! k = Some e →
  _cache c !! k = Some e
  ∨ (k = fingerprint q
     ∧ new_entry now_set (value e) (Some cache_ttl_seconds) = Some e
     ∧ ∃ r, out = Returned r ∧ validate (value e) = inl r).
Proof.
  unfold get_recipe. destruct configured; simpl; [|by intros [= <- <-]; left].
  unfold Service.get_recipe, Service.set_recipe.
  pose proof (get_lookup_sub now_get (fingerprint q) c k e) as Hget.
  destruct (get now_get (fingerprint q) c) as [cached c1]. simpl in Hget.
  destruct cached as [data|];
    [destruct (truthy data);
       [destruct (validate data); intros [= <- <-] Hk; left; auto|]|].
  all: destruct (generate_recipe J E json_loads str_exn generate_content true q)
         as [data'|e0];
       [ destruct (validate data') as [r|text] eqn:Hv;
         [ pose proof (set_lookup_sub now_set (fingerprint q) data'
                         (Some cache_ttl_seconds) c1 k e) as Hset;
           destruct (set now_set (fingerprint q) data' (Some cache_ttl_seconds) c1)
             as [[|] c2]; cbn [fst snd] in Hset;
           intros [= <- <-] Hk;
           (destruct (Hset Hk) as [(-> & Hs & He)|Hold]; [|by left; auto]);
           [ right; pose proof He as (Hval & _)%new_entry_value;
             rewrite Hval; simpl in He; eauto
           | done ]
         | intros [= <- <-] Hk; left; auto ]
       | destruct (String.eqb _ _); intros [= <- <-] Hk; left; auto ].
Qed.

(** X18: after a request that missed the cache and returned a response, a
    request with the same fingerprint, made before the entry expires, gets
    the same response from the cache, whatever the model would answer. *)
Theorem repeated_request_served (gc gc' : string → option string + string)
    (now_get now_set now_get' now_set' : Z) (q q' : RecipeRequest)
    (c c1 : InMemoryCache J) (r : R) :
  (∀ v r, validate v = inl r → truthy v = true) →
  (Service.get_recipe now_get (dish_name q) (servings q)
     (dietary_restrictions q) c).1 = None →
  route gc true now_get now_set q c = (Returned r, c1) →
  fingerprint q' = fingerprint q →
  cache_ttl_seconds = 0 ∨ now_get' <= now_set + timedelta cache_ttl_seconds →
  (route gc' true now_get' now_set' q' c1).1 = Returned r.
Proof.
  intros Htruthy Hmiss Hfirst Hkey Httl.
  unfold get_recipe in Hfirst. simpl in Hfirst.
  destruct (Service.get_recipe now_get _ _ _ c) as [cached c0].
  simpl in Hmiss. subst cached.
  destruct (generate_recipe _ _ _ _ _ _ _) as [data|e0];
    [|by destruct (String.eqb _ _)].
  destruct (validate data) as [r0|text] eqn:Hv; [|done].
  unfold Service.set_recipe in Hfirst.
  destruct (set now_set (fingerprint q) data (Some cache_ttl_seconds) c0)
    as [[|] c2] eqn:Hset; [|done].
  injection Hfirst as -> <-.
  apply lookup_set in Hset as (e & He & Hk).
  unfold get_recipe. simpl. unfold Service.get_recipe.
  rewrite Hkey.
  erewrite get_live; [|exact Hk|by eapply not_expired_within].
  apply new_entry_value in He as [-> _].
  simpl. by rewrite (Htruthy _ _ Hv), Hv.
Qed.

End route.

End ApiFacts.

(** ** The properties above at concrete inputs *)

Module CacheChecks.
Import Cache CacheFacts CacheMore.
Local Open Scope string_scope.

Lemma set_get_round_trip_witness :
  (get 1000000 "k" (set 0 "k" 7 None (init 2 3600)).2).1 = Some 7.
Proof.
  apply (set_get_round_trip (init 2 3600) (set 0 "k" 7 None (init 2 3600)).2
           0 1000000 "k" 7 None).
  - reflexivity.
  - right. vm_compute. discriminate.
Defined.

Lemma set_get_expired_witness :
  (get 3600000001 "k" (set 0 "k" 7 None (run (init 2 3600) two_sets)).2).1 = None
  ∧ _cache (get 3600000001 "k"
              (set 0 "k" 7 None (run (init 2 3600) two_sets)).2).2 !! "k" = None
  ∧ ("k" ∉ _access_order (get 3600000001 "k"
                            (set 0 "k" 7 None (run (init 2 3600) two_sets)).2).2)
  ∧ _cache (size_op (λ _, 3600000001)
              (set 0 "k" 7 None (run (init 2 3600) two_sets)).2).2 !! "k" = None
  ∧ ("k" ∉ _access_order (size_op (λ _, 3600000001)
                            (set 0 "k" 7 None (run (init 2 3600) two_sets)).2).2).
Proof.
  apply (set_get_expired 2 3600 two_sets 0 3600000001 (λ _, 3600000001) "k" 7 None
           (set 0 "k" 7 None (run (init 2 3600) two_sets)).2).
  - reflexivity.
  - vm_compute. discriminate.
  - vm_compute. reflexivity.
  - vm_compute. reflexivity.
Defined.

Lemma set_evicts_head_only_witness :
  _cache (set 9 "c" 3 None (run (init 2 3600) two_sets)).2 !! "b"
  = _cache (run (init 2 3600) two_sets) !! "b".
Proof.
  apply (set_evicts_head_only 2 3600 two_sets 9 "c" 3 None "b").
  - lia.
  - discriminate.
  - right. vm_compute. discriminate.
Defined.

Lemma recent_key_survives_witness :
  (_cache (set 8 "c" 30 None
             (set 7 "a" 10 None (run (init 2 3600) two_sets)).2).2 !! "a"
   = _cache (set 7 "a" 10 None (run (init 2 3600) two_sets)).2 !! "a")
  ∧ (∀ x, (get 7 "a" (run (init 2 3600) two_sets)).1 = Some x →
       _cache (set 8 "c" 30 None (get 7 "a" (run (init 2 3600) two_sets)).2).2 !! "a"
       = _cache (run (init 2 3600) two_sets) !! "a").
Proof.
  apply (recent_key_survives 2 3600 two_sets 7 8 "a" "c" 10 30 None None).
  - lia.
  - discriminate.
Defined.

End CacheChecks.

Module DecoderChecks.
Import PyStr Json Decoder DecoderFacts DecoderMore FenceFacts Gemini GeminiFacts.
Local Open Scope string_scope.

Lemma surrounding_space_ignored_witness :
  _parse_response json exn loads (" " ++ qq "{'a':1}" ++ String newline "")
  = _parse_response json exn loads (qq "{'a':1}").
Proof.
  apply (surrounding_space_ignored json exn loads " " (qq "{'a':1}")
           (String newline "")); reflexivity.
Defined.

Lemma fenced_text_decoded_witness :
  _parse_response json exn loads
    ("```" ++ "json" ++ String newline "" ++ qq "{'a':1}" ++ String newline "" ++ "```")
  = _parse_response json exn loads (qq "{'a':1}").
Proof.
  apply (fenced_text_decoded json exn loads "json" (String newline "") (qq "{'a':1}")
           (String newline "")); try reflexivity.
  by left.
Defined.

Lemma blank_response_fails_witness :
  _parse_response json exn loads (String newline "  ") = RaisesService parse_error.
Proof.
  apply (blank_response_fails json exn loads (String newline "  ")); reflexivity.
Defined.

Lemma trailing_commas_only_commas_witness :
  count "]" (remove_trailing_commas "[[1,],]") = count "]" "[[1,],]"
  ∧ (String.length (remove_trailing_commas "[[1,],]") ≤ String.length "[[1,],]")%nat.
Proof. apply (trailing_commas_only_commas "[[1,],]" "]"). discriminate. Defined.

Definition sample_request : RecipeRequest :=
  mkRecipeRequest "Pad Thai" 2 (Some "Thai") (Some ["Vegan"; "Gluten-Free"]) None.

Definition failing_model (prompt : string) : option string + string :=
  inr "timeout".
Definition blank_model (prompt : string) : option string + string :=
  inl (Some (String newline " ")).

Definition timeout_error : GeminiServiceError :=
  {| message := "AI service error: timeout"; error_code := "API_ERROR" |}.

Lemma generate_recipe_errors_witness :
  error_code timeout_error ∈ gemini_codes
  ∧ (error_code timeout_error = "NOT_CONFIGURED" ↔ true = false)
  ∧ (error_code timeout_error = "EMPTY_RESPONSE" ↔
       true = true
       ∧ (failing_model (_build_prompt sample_request) = inl None
          ∨ failing_model (_build_prompt sample_request) = inl (Some "")))
  ∧ (error_code timeout_error = "API_ERROR" ↔
       true = true
       ∧ ((∃ msg, failing_model (_build_prompt sample_request) = inr msg)
          ∨ (∃ text x,
               failing_model (_build_prompt sample_request) = inl (Some text)
               ∧ text ≠ "" ∧ loads (repaired text) = Raises x)))
  ∧ (error_code timeout_error = "JSON_PARSE_ERROR" ↔
       true = true
       ∧ ∃ text, failing_model (_build_prompt sample_request) = inl (Some text)
                 ∧ text ≠ "" ∧ loads (repaired text) = JSONDecodeError).
Proof.
  apply (generate_recipe_errors json exn loads str failing_model true
           sample_request timeout_error).
  reflexivity.
Defined.

Lemma blank_text_is_parse_error_witness :
  generate_recipe json exn loads str blank_model true sample_request
  = inr parse_error.
Proof.
  apply (blank_text_is_parse_error json exn loads str blank_model sample_request
           (String newline " ")); try reflexivity.
  discriminate.
Defined.

End DecoderChecks.

Module ApiChecks.
Import PyStr KeyGen Cache CacheFacts CacheMore ServiceFacts Json Decoder Gemini Api ApiFacts.
Import DecoderChecks.
Local Open Scope string_scope.

Lemma recipe_round_trip_witness :
  (Service.get_recipe 20 " pad thai " 2 (Some ["Gluten-Free"; "Vegan"])
     (Service.set_recipe 10 "Pad Thai" 2 7 (Some ["Vegan"; "Gluten-Free"]) None
        (init 2 3600)).2).1 = Some 7.
Proof.
  apply (recipe_round_trip (init 2 3600)
           (Service.set_recipe 10 "Pad Thai" 2 7 (Some ["Vegan"; "Gluten-Free"]) None
              (init 2 3600)).2
           10 20 "Pad Thai" " pad thai " 2
           (Some ["Vegan"; "Gluten-Free"]) (Some ["Gluten-Free"; "Vegan"]) 7 None);
    try reflexivity.
  right. vm_compute. discriminate.
Defined.

(** A non-empty object counts as true and as valid. *)
Definition sample_truthy (v : json) : bool :=
  match v with
  | JObj (_ :: _) => true
  | _ => false
  end.

Definition sample_validate (v : json) : json + string :=
  if sample_truthy v then inl v else inr "validation error".

Definition sample_model (prompt : string) : option string + string :=
  inl (Some (qq "{'dish_name':'Pad Thai','servings':2}")).

Definition sample_data : json :=
  JObj [(codes "dish_name", JStr (codes "Pad Thai")); (codes "servings", JInt 2)].

Definition sample_route gc configured now_get now_set q c :=
  get_recipe json exn loads str gc json sample_validate sample_truthy 3600
             "date value out of range" configured now_get now_set q c.

Definition sample_after : InMemoryCache json :=
  (sample_route sample_model true 0 5 sample_request (init 10 3600)).2.

Definition sample_entry : CacheEntry json :=
  {| value := sample_data; created_at := 5; expires_at := Some 3600000005 |}.

Lemma repeated_request_served_witness :
  (sample_route failing_model true 100 105 sample_request sample_after).1
  = Returned sample_data.
Proof.
  apply (repeated_request_served json exn loads str json sample_validate
           sample_truthy 3600 "date value out of range"
           sample_model failing_model 0 5 100 105 sample_request sample_request
           (init 10 3600) sample_after sample_data).
  - intros v r. unfold sample_validate. destruct (sample_truthy v); [done|discriminate].
  - reflexivity.
  - vm_compute. reflexivity.
  - reflexivity.
  - right. vm_compute. discriminate.
Defined.

Lemma route_writes_validated_only_witness :
  _cache (init 10 3600) !! generate_recipe_key "Pad Thai" 2 (Some ["Vegan"; "Gluten-Free"])
  = Some sample_entry
  ∨ (generate_recipe_key "Pad Thai" 2 (Some ["Vegan"; "Gluten-Free"])
     = generate_recipe_key (dish_name sample_request) (servings sample_request)
         (dietary_restrictions sample_request)
     ∧ new_entry 5 (value sample_entry) (Some 3600) = Some sample_entry
     ∧ ∃ r, Returned sample_data = Returned r
            ∧ sample_validate (value sample_entry) = inl r).
Proof.
  apply (route_writes_validated_only json exn loads str json sample_validate
           sample_truthy 3600 "date value out of range"
           sample_model true 0 5 sample_request (init 10 3600) sample_after
           (Returned sample_data)
           (generate_recipe_key "Pad Thai" 2 (Some ["Vegan"; "Gluten-Free"]))
           sample_entry).
  - vm_compute. reflexivity.
  - vm_compute. reflexivity.
Defined.

Definition timeout_api_error : APIError :=
  InternalServerError "AI service error: timeout" (Some [("error_code", "API_ERROR")]).

Lemma route_errors_witness :
  (true = false
   ∧ timeout_api_error = not_configured_error
   ∧ init 10 3600 = init (V:=json) 10 3600)
  ∨ (true = true
     ∧ status_code timeout_api_error = 500
     ∧ api_error_code timeout_api_error = "INTERNAL_ERROR"
     ∧ ((∃ code, code ∈ ["EMPTY_RESPONSE"; "JSON_PARSE_ERROR"; "API_ERROR"]
                 ∧ details timeout_api_error = Some [("error_code", code)])
        ∨ (∃ text, api_message timeout_api_error = "Failed to generate recipe"
                   ∧ details timeout_api_error = Some [("original_error", text)]
                   ∧ ((∃ data, sample_validate data = inr text)
                      ∨ text = "date value out of range")))).
Proof.
  apply (route_errors json exn loads str json sample_validate sample_truthy 3600
           "date value out of range"
           failing_model true 0 5 sample_request (init 10 3600) (init 10 3600)
           timeout_api_error).
  vm_compute. reflexivity.
Defined.

End ApiChecks.

(** ** The two decoders on a fenced text *)

Module StreamlitFacts.

Import PyStr Decoder KeyGenFacts DecoderFacts DecoderMore FenceFacts Streamlit.
Local Open Scope string_scope.

(** No backtick in [s]. *)
Definition no_backtick (s : string) : bool :=
  all (fun c => negb (Ascii.eqb c "`")) s.

Lemma until_fence_append s :
  no_backtick s = true → until_fence (s ++ "```") = s.
Proof.
  induction s as [|c s IH]; [done|]. rewrite append_cons.
  cbn [no_backtick all]. intros [Hc Hs]%andb_prop.
  cbn [until_fence startswith].
  destruct (Ascii.eqb_spec "`" c) as [<-|_]; [done|]. simpl.
  by rewrite (IH Hs).
Qed.

Section decoders.

Variable J E : Type.
Variable json_loads : string → Json.loaded J E.

(** X22: on a response between fences, with or without the tag [json], whose
    inside holds no backtick, the Streamlit front end parses the same text
    as the service decoder repairs, the stripped inside; so whenever that
    text needs no repair the two return the same value. *)
Theorem front_end_agrees (lang w1 inner w2 : string) :
  lang = "json"
  ∨ (lang = "" ∧ startswith "json" (w1 ++ inner ++ w2) = false) →
  all isspace w1 = true → all isspace w2 = true →
  no_backtick (w1 ++ inner ++ w2) = true →
  let fenced := "```" ++ lang ++ w1 ++ inner ++ w2 ++ "```" in
  parse_text J E json_loads fenced = Json.value_of (json_loads (strip inner))
  ∧ strip_fences fenced = strip inner
  ∧ (no_repair (strip inner) = true →
     ∀ v, parse_text J E json_loads fenced = Some v →
          _parse_response J E json_loads fenced = Returns v).
Proof.
  intros Hlang H1 H2 Hb fenced.
  assert (Hs : startswith "json" (w1 ++ inner ++ w2 ++ "```") = false
               ∨ lang = "json").
  { destruct Hlang as [->|[-> Hj]]; [by right|left].
    revert Hj Hb. rewrite <- !append_assoc.
    generalize ((w1 ++ inner) ++ w2) as body. intros body Hj Hb.
    destruct body as [|a [|b [|c [|d body]]]]; try done;
      rewrite ?append_cons, ?append_nil_l; simpl in *;
      repeat (destruct (Ascii.eqb _ _); try done). }
  assert (Hf : strip_fences fenced = strip inner).
  { apply strip_fences_fenced; [|done|done].
    destruct Hlang as [->|[-> Hj]]; [by left|right]. split; [done|].
    by destruct Hs. }
  assert (Hp : parse_text J E json_loads fenced
               = Json.value_of (json_loads (strip inner))).
  { unfold parse_text, Json.value_of.
    apply (f_equal (λ t, match json_loads t with
                         | Json.Value v => Some v
                         | _ => None
                         end)).
    subst fenced.
    replace (lang ++ w1 ++ inner ++ w2 ++ "```")
      with ((lang ++ w1 ++ inner ++ w2) ++ "```") by (by rewrite !append_assoc).
    rewrite strip_fenced.
    change (startswith "```" ("```" ++ (lang ++ w1 ++ inner ++ w2) ++ "```"))
      with true. cbn iota.
    change (second_piece ("```" ++ (lang ++ w1 ++ inner ++ w2) ++ "```"))
      with (until_fence ((lang ++ w1 ++ inner ++ w2) ++ "```")).
    destruct Hlang as [->|[-> Hj]].
    - rewrite until_fence_append by (by rewrite !append_cons).
      change (startswith "json" ("json" ++ w1 ++ inner ++ w2)) with true.
      cbn iota. change (drop 4 ("json" ++ w1 ++ inner ++ w2)) with (w1 ++ inner ++ w2).
      by apply strip_by_pad.
    - rewrite append_nil_l, until_fence_append by done. rewrite Hj.
      by apply strip_by_pad. }
  split; [done|]. split; [done|].
  intros Hn v Hv. rewrite Hp in Hv. unfold _parse_response. rewrite Hf.
  unfold no_repair in Hn. repeat (apply andb_prop in Hn as [Hn ?]).
  rewrite remove_trailing_commas_id by (by apply negb_true_iff).
  rewrite close_truncated_id by done.
  destruct (json_loads (strip inner)); [|done|done]. by injection Hv as ->.
Qed.

End decoders.

Import Json.

Lemma front_end_agrees_witness :
  parse_text json exn loads
    ("```" ++ "json" ++ String newline "" ++ qq "{'a':1}" ++ String newline "" ++ "```")
  = value_of (loads (strip (qq "{'a':1}")))
  ∧ strip_fences
      ("```" ++ "json" ++ String newline "" ++ qq "{'a':1}" ++ String newline "" ++ "```")
    = strip (qq "{'a':1}")
  ∧ (no_repair (strip (qq "{'a':1}")) = true →
     ∀ v, parse_text json exn loads
            ("```" ++ "json" ++ String newline "" ++ qq "{'a':1}"
             ++ String newline "" ++ "```") = Some v →
          _parse_response json exn loads
            ("```" ++ "json" ++ String newline "" ++ qq "{'a':1}"
             ++ String newline "" ++ "```") = Returns v).
Proof.
  apply (front_end_agrees json exn loads "json" (String newline "") (qq "{'a':1}")
           (String newline "")); try reflexivity.
  by left.
Defined.

End StreamlitFacts.
